(** * LU decomposition with pivot search: a model of [ProjectA/matrix.py]

    The Python module factors a square matrix with Crout's method after a
    row permutation found by a greedy search with re-pivoting, solves
    linear systems by forward and back substitution, and computes
    determinants and inverses from the decomposition.  This file embeds
    the functions of the module and states their properties. *)

From Stdlib Require Import ZArith QArith Lia Lqa.
From stdpp Require Import base decidable option list sets.

Set Default Proof Using "Type".
Local Open Scope nat_scope.

(** ** Numbers

    The entries of the arrays are [float64] values.  A finite value is
    modelled by the rational it denotes, kept in lowest terms; the result
    of an operation on finite values is the exact result rounded to the
    nearest binary64 value, an infinity when it is too large.  The three
    special values follow the IEEE rules numpy applies (a division by zero
    yields an infinity or a nan, it does not raise).  The sign of a zero
    is not modelled. *)

Inductive float : Type :=
  | Fin (q : Q)
  | PInf
  | NInf
  | NaN.

Definition Qpos (q : Q) : bool := (0 <? Qnum q)%Z.
Definition Qzero (q : Q) : bool := (Qnum q =? 0)%Z.

(** The integer nearest to [n / d] for [d > 0]; of two nearest integers,
    the even one. *)
Definition round_half_even (n d : Z) : Z :=
  let q := (n / d)%Z in
  match (2 * (n mod d) ?= d)%Z with
  | Lt => q
  | Gt => (q + 1)%Z
  | Eq => if Z.even q then q else (q + 1)%Z
  end.

(** [2^e <= n / d], for positive [n] and [d]. *)
Definition pow2_le (e n d : Z) : bool :=
  if (0 <=? e)%Z then (d * 2 ^ e <=? n)%Z else (d <=? n * 2 ^ (- e))%Z.

(** The integer [e] with [2^e <= n / d < 2^(e+1)], for positive [n] and
    [d]. *)
Definition floor_log2 (n d : Z) : Z :=
  let e := (Z.log2 n - Z.log2 d)%Z in
  if pow2_le e n d then e else (e - 1)%Z.

(** [m * 2^e] as a fraction in lowest terms. *)
Definition ldexp (m e : Z) : Q :=
  Qred (if (0 <=? e)%Z then inject_Z (m * 2 ^ e) else m # Z.to_pos (2 ^ (- e))).

(** The binary64 value nearest to the positive rational [n / d]: a
    multiple of [2^e] with 53 significant bits for a normal value, a
    multiple of [2^-1074] below [2^-1022]; [None] when the rounded value
    is [2^1024] or more. *)
Definition round64_pos (n d : Z) : option Q :=
  let e := (Z.max (floor_log2 n d) (-1022) - 52)%Z in
  let m := if (0 <=? e)%Z then round_half_even n (d * 2 ^ e)
           else round_half_even (n * 2 ^ (- e)) d in
  if (971 <? e)%Z || ((e =? 971)%Z && (m =? 2 ^ 53)%Z) then None else Some (ldexp m e).

(** Rounding to nearest, ties to even, with overflow to an infinity. *)
Definition round64 (q : Q) : float :=
  let q := Qred q in
  match Qnum q with
  | Z0 => Fin 0
  | Zpos n =>
      match round64_pos (Zpos n) (Zpos (Qden q)) with
      | Some r => Fin r
      | None => PInf
      end
  | Zneg n =>
      match round64_pos (Zpos n) (Zpos (Qden q)) with
      | Some r => Fin (Qred (- r))
      | None => NInf
      end
  end.
Arguments round64 : simpl never.

Definition inf_of_sign (positive : bool) : float :=
  if positive then PInf else NInf.

Definition fneg (x : float) : float :=
  match x with
  | Fin q => Fin (Qred (- q))
  | PInf => NInf
  | NInf => PInf
  | NaN => NaN
  end.

Definition fadd (x y : float) : float :=
  match x, y with
  | NaN, _ | _, NaN => NaN
  | Fin a, Fin b => round64 (a + b)
  | PInf, NInf | NInf, PInf => NaN
  | PInf, _ | _, PInf => PInf
  | NInf, _ | _, NInf => NInf
  end.

Definition fsub (x y : float) : float := fadd x (fneg y).

(** The product of an infinity and a finite value. *)
Definition inf_times (positive : bool) (q : Q) : float :=
  if Qzero q then NaN else inf_of_sign (Bool.eqb positive (Qpos q)).

Definition fmul (x y : float) : float :=
  match x, y with
  | NaN, _ | _, NaN => NaN
  | Fin a, Fin b => round64 (a * b)
  | PInf, Fin q | Fin q, PInf => inf_times true q
  | NInf, Fin q | Fin q, NInf => inf_times false q
  | PInf, PInf | NInf, NInf => PInf
  | PInf, NInf | NInf, PInf => NInf
  end.

Definition fdiv (x y : float) : float :=
  match x, y with
  | NaN, _ | _, NaN => NaN
  | Fin a, Fin b =>
      if Qzero b then (if Qzero a then NaN else inf_of_sign (Qpos a))
      else round64 (a / b)
  | Fin _, _ => Fin 0
  | PInf, Fin b => inf_of_sign (negb (Qnum b <? 0)%Z)
  | NInf, Fin b => inf_of_sign (Qnum b <? 0)%Z
  | _, _ => NaN
  end.

(** [x == y], [x < y], [x <= y] and [x != 0] on floats. *)
Definition feqb (x y : float) : bool :=
  match x, y with
  | Fin a, Fin b => Qeq_bool a b
  | PInf, PInf | NInf, NInf => true
  | _, _ => false
  end.

Definition fltb (x y : float) : bool :=
  match x, y with
  | NaN, _ | _, NaN => false
  | Fin a, Fin b => negb (Qle_bool b a)
  | _, NInf | PInf, _ => false
  | NInf, _ | _, PInf => true
  end.

Definition fleb (x y : float) : bool :=
  match x, y with
  | NaN, _ | _, NaN => false
  | Fin a, Fin b => Qle_bool a b
  | NInf, _ | _, PInf => true
  | _, _ => false
  end.

Definition fnonzero (x : float) : bool := negb (feqb x (Fin 0)).

Definition is_nan (x : float) : bool :=
  match x with NaN => true | _ => false end.

(** The float nearest to an integer. *)
Definition of_int (z : Z) : float := round64 (inject_Z z).

#[global] Instance float_inhabited : Inhabited float := populate (Fin 0).

(** ** Exceptions and results *)

Inductive exn : Type :=
  | ValueError_col_of_0s      (* raise ValueError("Col of 0's!") *)
  | ValueError_not_in_list    (* list.index on a missing element *)
  | ValueError_reshape        (* reshape to a shape of another size *)
  | ValueError_shapes         (* matrix product of misaligned shapes *)
  | IndexError
  | TypeError                 (* len() of an unsized array *)
  | AttributeError            (* a method called on None *)
  | RecursionError.           (* the call stack is exhausted *)

Inductive result (A : Type) : Type :=
  | Ok (a : A)
  | Raise (e : exn).
Arguments Ok {A} a.
Arguments Raise {A} e.

#[global] Instance result_ret : MRet result := @Ok.
#[global] Instance result_bind : MBind result := λ A B f m,
  match m with
  | Ok a => f a
  | Raise e => Raise e
  end.

(** ** Matrices *)

Abbreviation matrix := (list (list float)).

(** [M[i, j]].  The module reads a matrix only inside its bounds when the
    matrix is square, which every statement below assumes; outside the
    bounds the model reads a zero where numpy raises. *)
Definition entry (M : matrix) (i j : nat) : float :=
  default (Fin 0) (M !! i ≫= λ row, row !! j).

Definition square (n : nat) (M : matrix) : Prop :=
  length M = n ∧ Forall (λ row, length row = n) M.

(** No row outside [used] holds a nan in the column [col]: the entries
    the direct assignment compares are numbers. *)
Definition numeric_column (col : nat) (M : matrix) (used : list nat) : Prop :=
  ∀ r, r ∉ used → is_nan (entry M r col) = false.

(** ** The pivot search

    [used] and [P] are the two Python lists the three functions share and
    update in place; they are threaded through the calls. *)

Abbreviation lists := (list nat * list nat)%type.

(** [try: P[col] = row  except IndexError: P.append(row)]. *)
Definition assign (P : list nat) (col row : nat) : list nat :=
  if decide (col < length P) then <[col:=row]> P else P ++ [row].

(** [P.index(row)]. *)
Definition index (P : list nat) (row : nat) : result nat :=
  match list_find (λ x, x = row) P with
  | Some (i, _) => Ok i
  | None => Raise ValueError_not_in_list
  end.

(** Python's [<] on the tuples [(value, row)]: the first components that
    differ (by [==]) decide. *)
Definition entry_lt (a b : float * nat) : bool :=
  if feqb a.1 b.1 then a.2 <? b.2 else fltb a.1 b.1.

Fixpoint insert_desc (x : float * nat) (l : list (float * nat)) : list (float * nat) :=
  match l with
  | [] => [x]
  | y :: l' => if entry_lt x y then y :: insert_desc x l' else x :: l
  end.

(** [entries.sort(reverse=True)]: the stable descending arrangement.  When
    the values are numbers the order on the tuples is total and the rows
    differ, so the sorted list does not depend on the sorting algorithm;
    the model sorts by insertion. *)
Definition sort_reverse (l : list (float * nat)) : list (float * nat) :=
  foldr insert_desc [] l.

(** The unused rows with a non-zero entry in [col], as [(value, row)]. *)
Definition candidates (col : nat) (M : matrix) (used : list nat) : list (float * nat) :=
  (λ row, (entry M row col, row)) <$>
    filter (λ i, (i ∉ used) ∧ Is_true (fnonzero (entry M i col))) (seq 0 (length M)).

Definition _check_unused (col : nat) (M : matrix) (used P : list nat) : bool * lists :=
  match sort_reverse (candidates col M used) with
  | [] => (false, (used, P))
  | e :: _ => (true, (used ++ [e.2], assign P col e.2))
  end.

(** The used rows with a non-zero entry in [col] that are not assigned to
    [col].  [P.index] is only evaluated when the entry is non-zero. *)
Fixpoint used_entries (col : nat) (M : matrix) (P rows : list nat) : result (list (float * nat)) :=
  match rows with
  | [] => Ok []
  | row :: rows' =>
      keep ← (if fnonzero (entry M row col)
              then i ← index P row; Ok (negb (i =? col))
              else Ok false);
      rest ← used_entries col M P rows';
      Ok (if keep : bool then (entry M row col, row) :: rest else rest)
  end.

(** One of the two loops over the sorted entries: [attempt] is tried on
    the column each entry's row is assigned to; at the first success the
    row is given to [col]. *)
Fixpoint try_entries (attempt : nat → list nat → list nat → result (bool * lists))
    (col : nat) (entries : list (float * nat)) (used P : list nat) : result (bool * lists) :=
  match entries with
  | [] => Ok (false, (used, P))
  | e :: rest =>
      used_col ← index P e.2;
      '(ok, (used1, P1)) ← attempt used_col used P;
      if ok : bool then Ok (true, (used1, assign P1 col e.2))
      else try_entries attempt col rest used1 P1
  end.

(** [fuel] is the depth of call stack left. *)
Fixpoint _repivot_used (fuel : nat) (col : nat) (M : matrix) (used P : list nat)
    : result (bool * lists) :=
  match fuel with
  | 0 => Raise RecursionError
  | S fuel' =>
      entries ← used_entries col M P used;
      let entries := sort_reverse entries in
      '(ok, (used1, P1)) ← try_entries (λ c u p, Ok (_check_unused c M u p)) col entries used P;
      if ok : bool then Ok (true, (used1, P1))
      else try_entries (λ c u p, _repivot_used fuel' c M u p) col entries used1 P1
  end.

(** [(-1) ** z]. *)
Definition pow_neg1 (z : Z) : Z := if Z.even z then 1%Z else (-1)%Z.

(** The inner loop of [_det_P]: [vi] starts at [viold] and loses one for
    every [vj] in [v[:i + 1]] below [viold]. *)
Definition adjusted_rank (v : list nat) (i viold : nat) : Z :=
  foldl (λ vi vj, if vj <? viold then (vi - 1)%Z else vi) (Z.of_nat viold) (take (i + 1) v).

Definition enumerate {A} (l : list A) : list (nat * A) := imap pair l.

Definition _det_P (v : list nat) : result Z :=
  match v with
  | [] => Raise IndexError
  | v0 :: _ =>
      Ok (foldl (λ n '(i, vi), (n * pow_neg1 (adjusted_rank v i vi))%Z)
            (1 * pow_neg1 (Z.of_nat v0))%Z
            (enumerate (drop 1 (take (length v - 1) v))))
  end.

Definition _matrix_P (P : list nat) : list (list Z) :=
  (λ n, (λ i, if decide (i = P !!! n) then 1%Z else 0%Z) <$> seq 0 (length P))
    <$> seq 0 (length P).

(** The loop of [_pivot] over the columns [cols]. *)
Fixpoint pivot_loop (fuel : nat) (M : matrix) (cols used P : list nat) : result lists :=
  match cols with
  | [] => Ok (used, P)
  | col :: cols' =>
      let '(ok, (used1, P1)) := _check_unused col M used P in
      if ok : bool then pivot_loop fuel M cols' used1 P1
      else
        '(ok, (used2, P2)) ← _repivot_used fuel col M used1 P1;
        if ok : bool then pivot_loop fuel M cols' used2 P2
        else Raise ValueError_col_of_0s
  end.

(** The list [P] that [_pivot] has built when its loop ends. *)
Definition pivot_list (fuel : nat) (M : matrix) : result (list nat) :=
  '(_, P) ← pivot_loop fuel M (seq 0 (length M)) [] [];
  Ok P.

Definition _pivot (fuel : nat) (M : matrix) : result (list (list Z) * Z) :=
  P ← pivot_list fuel M;
  n ← _det_P P;
  Ok (_matrix_P P, n).

(** ** Arrays in the store

    [LU] receives a reference to the caller's array and writes entries of
    arrays in place.  The store holds the arrays alive; a reference is a
    position in it, and a new array goes to the end. *)

Abbreviation loc := nat (only parsing).
Abbreviation heap := (list matrix).

Definition St (A : Type) : Type := heap → result A * heap.

#[global] Instance St_ret : MRet St := λ A a h, (Ok a, h).
#[global] Instance St_bind : MBind St := λ A B f m h,
  match m h with
  | (Ok a, h') => f a h'
  | (Raise e, h') => (Raise e, h')
  end.

Definition lift {A} (r : result A) : St A := λ h, (r, h).

Definition load (l : loc) : St matrix := λ h, (Ok (h !!! l), h).

Definition alloc (m : matrix) : St loc := λ h, (Ok (length h), h ++ [m]).

(** [M[i, j]] and [M[i, j] = x] through the reference [l]. *)
Definition get (l : loc) (i j : nat) : St float := λ h, (Ok (entry (h !!! l) i j), h).

Definition set_entry (m : matrix) (i j : nat) (x : float) : matrix :=
  alter (λ row, <[j:=x]> row) i m.

Definition set (l : loc) (i j : nat) (x : float) : St unit :=
  λ h, (Ok (), alter (λ m, set_entry m i j x) l h).

(** A [for] loop over [xs] that carries a value. *)
Fixpoint for_ {A} (xs : list nat) (body : nat → A → St A) (a : A) : St A :=
  match xs with
  | [] => mret a
  | x :: xs' => a' ← body x a; for_ xs' body a'
  end.

(** [range(a, b)]. *)
Definition range (a b : nat) : list nat := seq a (b - a).

Definition ncols {A} (m : list (list A)) : nat :=
  match m with
  | [] => 0
  | row :: _ => length row
  end.

Definition dot (xs ys : list float) : float :=
  foldl (λ acc xy, fadd acc (fmul xy.1 xy.2)) (Fin 0) (zip xs ys).

Definition column (B : matrix) (j : nat) : list float := (λ row, row !!! j) <$> B.

(** The product [A * B] of two numpy matrices. *)
Definition matmul (A B : matrix) : result matrix :=
  if decide (ncols A = length B)
  then Ok ((λ row, (λ j, dot row (column B j)) <$> seq 0 (ncols B)) <$> A)
  else Raise ValueError_shapes.

Definition to_float (P : list (list Z)) : matrix := map (map of_int) P.

(** ** Splitting the combined matrix *)

Definition _Lower (LU : matrix) : matrix :=
  let n := length LU in
  (λ i, (λ j, if decide (i = j) then Fin 1
              else if decide (i < j) then Fin 0 else entry LU i j) <$> seq 0 n) <$> seq 0 n.

Definition _Upper (LU : matrix) : matrix :=
  let n := length LU in
  (λ i, (λ j, if decide (j < i) then Fin 0 else entry LU i j) <$> seq 0 n) <$> seq 0 n.

(** ** The decomposition *)

(** [for k in ks: mij -= M[i, k] * M[k, j]]. *)
Definition subtract_products (M : loc) (i j : nat) (ks : list nat) (mij : float) : St float :=
  for_ ks (λ k mij, a ← get M i k; b ← get M k j; mret (fsub mij (fmul a b))) mij.

Definition upper_entry (M : loc) (j i : nat) : St unit :=
  mij ← get M i j;
  mij ← (if decide (i ≠ 0) then subtract_products M i j (range 0 i) mij else mret mij);
  set M i j mij.

Definition lower_entry (M : loc) (j i : nat) : St unit :=
  mij ← get M i j;
  mij ← subtract_products M i j (range 0 j) mij;
  d ← get M j j;
  set M i j (fdiv mij d).

Definition crout_column (M : loc) (n j : nat) : St unit :=
  for_ (range 0 (j + 1)) (λ i _, upper_entry M j i) ();;
  for_ (range (j + 1) n) (λ i _, lower_entry M j i) ().

Definition LU (fuel : nat) (M : loc) : St (list (list Z) * Z * matrix * matrix) :=
  m ← load M;
  M ← alloc m;                                  (* M.astype('float') *)
  m ← load M;
  M ← alloc m;                                  (* .copy() *)
  m ← load M;
  '(P, n) ← lift (_pivot fuel m);
  pm ← lift (matmul (to_float P) m);
  M ← alloc pm;                                 (* M = P * M *)
  m ← load M;
  for_ (range 0 (length m)) (λ j _, crout_column M (length m) j) ();;
  m ← load M;
  mret (P, n, _Lower m, _Upper m).

(** ** Forward and back substitution *)

(** The right-hand side is a numpy array of any shape. *)
Record ndarray : Type := { shape : list nat; data : list float }.

(** [b.reshape(len(b), 1)]. *)
Definition reshape_column (b : ndarray) : result ndarray :=
  match shape b with
  | [] => Raise TypeError
  | n :: _ =>
      if decide (length (data b) = n) then Ok {| shape := [n; 1]; data := data b |}
      else Raise ValueError_reshape
  end.

(** [try: if b.shape[1] != 1: reshape  except IndexError: reshape]. *)
Definition as_column (b : ndarray) : result ndarray :=
  match shape b with
  | _ :: 1 :: _ => Ok b
  | _ => reshape_column b
  end.

(** [P * b] for a permutation matrix and a column. *)
Definition matvec (P : list (list Z)) (b : ndarray) : result (list float) :=
  match shape b with
  | [n; 1] =>
      if decide (ncols P = n) then Ok ((λ row, dot (map of_int row) (data b)) <$> P)
      else Raise ValueError_shapes
  | _ => Raise ValueError_shapes
  end.

Definition forward_step (L : matrix) (b y : list float) (i : nat) : list float :=
  let yi := foldl (λ yi j, fsub yi (fmul (entry L i j) (y !!! j))) (b !!! i) (range 0 i) in
  y ++ [fdiv yi (entry L i i)].

Definition back_step (U : matrix) (y : list float) (N : nat) (x : list float) (i : nat) : list float :=
  let xi := foldl (λ xi j, fsub xi (fmul (entry U i j) (x !!! j))) (y !!! i)
              (reverse (range (i + 1) (N + 1))) in
  <[i := fdiv xi (entry U i i)]> x.

Definition fb_sub (L U : matrix) (P : list (list Z)) (b : ndarray) : result (list float) :=
  b ← as_column b;
  b ← matvec P b;
  match b with
  | [] => Raise IndexError
  | b0 :: _ =>
      let y := foldl (forward_step L b) [fdiv b0 (entry L 0 0)] (range 1 (length b)) in
      let N := length b - 1 in
      let x := replicate (N + 1) (Fin 0) in
      let x := <[N := fdiv (y !!! N) (entry U N N)]> x in
      Ok (foldl (back_step U y N) x (reverse (range 0 N)))
  end.

(** ** The convenience entry point *)

Definition raise {A} (e : exn) : St A := λ h, (Raise e, h).

Definition simul_solve (fuel : nat) (M : loc) (b : ndarray)
    (P : option (list (list Z))) (n : option Z) (L U : option matrix) : St (list float) :=
  b ← lift (as_column b);
  m ← load M;
  M ← alloc m;                                  (* M.astype(float) *)
  '(P, L, U) ← match P with
               | None => '(P, n, L, U) ← LU fuel M; mret (P, Some L, Some U)
               | Some P => mret (P, L, U)
               end;
  match L, U with
  | Some L, Some U => lift (fb_sub L U P b)
  | _, _ => raise AttributeError
  end.

(** ** The determinant from the decomposition *)

(** A Python number: an [int] or a [float]. *)
Inductive number : Type :=
  | Int (z : Z)
  | Float (x : float).

(** [det *= x] for a float [x]: the product of an [int] and a float is a
    float. *)
Definition times (det : number) (x : float) : number :=
  match det with
  | Int z => Float (fmul (of_int z) x)
  | Float y => Float (fmul y x)
  end.

(** [det] starts as the integer [n]; it is returned as it is when [U] has
    no row. *)
Definition LU_det (n : Z) (U : matrix) : number :=
  foldl (λ det i, times det (entry U i i)) (Int n) (range 0 (length U)).

(** ** The inverse

    [invert] decomposes [A] once and solves [A x = e_i] for every unit
    vector with the decomposition at hand; the solutions are the columns
    of the inverse. *)

(** [np.array([(0, 1)[j == i] for j in range(n)])]; [fb_sub] casts the
    integers to floats. *)
Definition unit_vector (n i : nat) : ndarray :=
  {| shape := [n];
     data := (λ j, of_int (if decide (j = i) then 1 else 0)) <$> seq 0 n |}.

(** [x.reshape(n)] for the column [x]. *)
Definition reshape_flat (x : list float) (n : nat) : result (list float) :=
  if decide (length x = n) then Ok x else Raise ValueError_reshape.

(** [np.matrix(rows).T] for a list of rows of one length.  [invert]
    reaches it with at least one row: [LU] raises on the empty matrix. *)
Definition transpose (rows : matrix) : matrix :=
  column rows <$> seq 0 (ncols rows).

(** The body of the loop of [invert]: the column [i] of the inverse is
    appended to [A_inv]. *)
Definition invert_column (fuel : nat) (A : loc) (P : list (list Z)) (n : Z) (L U : matrix)
    (i : nat) (A_inv : matrix) : St matrix :=
  a ← load A;
  x ← simul_solve fuel A (unit_vector (length a) i) (Some P) (Some n) (Some L) (Some U);
  x ← lift (reshape_flat x (length a));
  mret (A_inv ++ [x]).

Definition invert (fuel : nat) (A : loc) : St matrix :=
  '(P, n, L, U) ← LU fuel A;
  a ← load A;
  A_inv ← for_ (range 0 (length a)) (invert_column fuel A P n L U) [];
  mret (transpose A_inv).

(** ** Examples used below *)

(** The scenario of the specification. *)
Definition scenario : matrix := to_float [[2; 1; 1]; [4; 3; 3]; [8; 7; 9]]%Z.

(** The depth of call stack CPython allows by default. *)
Definition recursion_limit : nat := 1000.

(** An invertible matrix (its determinant is -1) whose leading 2×2 minor
    vanishes once the rows are permuted by the pivot search. *)
Definition zero_pivot_int : list (list Z) := [[1; 1; 0]; [1; 1; 1]; [0; 1; 1]]%Z.
Definition zero_pivot_example : matrix := to_float zero_pivot_int.

(** What [LU] returns on it. *)
Definition zero_pivot_P : list (list Z) := [[0; 1; 0]; [1; 0; 0]; [0; 0; 1]]%Z.
Definition zero_pivot_L : matrix :=
  [[Fin 1; Fin 0; Fin 0]; [Fin 1; Fin 1; Fin 0]; [Fin 0; PInf; Fin 1]].
Definition zero_pivot_U : matrix :=
  [[Fin 1; Fin 1; Fin 1]; [Fin 0; Fin 0; Fin (-1)]; [Fin 0; Fin 0; PInf]].

(** [A == B] entry by entry. *)
Definition matrix_eqb (A B : matrix) : bool :=
  bool_decide (Forall2 (Forall2 (λ x y, feqb x y = true)) A B).

(** A one-dimensional array of integers. *)
Definition vector (l : list Z) : ndarray := {| shape := [length l]; data := map of_int l |}.

(** A singular matrix without a zero column: the third row is zero. *)
Definition singular_example : matrix := to_float [[1; 1; 1]; [1; 1; 1]; [0; 0; 0]]%Z.

(** The same with a zero column added. *)
Definition zero_column_example : matrix :=
  to_float [[1; 1; 1; 0]; [1; 1; 1; 0]; [0; 0; 0; 0]; [0; 0; 0; 0]]%Z.

(** Rows 0 and 1 tie in column 0. *)
Definition tie_example : matrix := to_float [[5; 1]; [5; 2]]%Z.

(** Column 0 holds [1, 2, nan, 3]. *)
Definition nan_column_example : matrix :=
  [[Fin 1; Fin 0; Fin 0; Fin 0]; [Fin 2; Fin 1; Fin 0; Fin 0];
   [NaN; Fin 0; Fin 1; Fin 0]; [Fin 3; Fin 0; Fin 0; Fin 1]].

(** Column 0 holds [5, nan, 5]. *)
Definition nan_tie_example : matrix :=
  [[Fin 5; Fin 1; Fin 0]; [NaN; Fin 0; Fin 1]; [Fin 5; Fin 0; Fin 0]].

(** ** Determinants of integer matrices, by expansion along the first row *)

Definition sum_Z (l : list Z) : Z := foldr Z.add 0%Z l.

Fixpoint det_rows (k : nat) (m : list (list Z)) : Z :=
  match k, m with
  | S k', row :: rest =>
      sum_Z ((λ j, pow_neg1 (Z.of_nat j) * (row !!! j) * det_rows k' (delete j <$> rest))%Z
               <$> seq 0 (length row))
  | _, _ => 1%Z
  end.

Definition det (m : list (list Z)) : Z := det_rows (length m) m.

(** Auxiliary notions for the sign of a permutation: unit rows, the
    renumbering of the columns after one is deleted, the number of earlier
    entries below a value, and the product of the signs of the adjusted
    ranks. *)
Definition unit_row (len p : nat) : list Z :=
  (λ i, if decide (i = p) then 1%Z else 0%Z) <$> seq 0 len.

Definition compress (p q : nat) : nat := if decide (p < q) then q - 1 else q.

Definition count_below (x : nat) (l : list nat) : Z :=
  Z.of_nat (length (filter (λ y, y < x) l)).

Fixpoint prod_adj (pre l : list nat) : Z :=
  match l with
  | [] => 1%Z
  | x :: l' => (pow_neg1 (Z.of_nat x - count_below x pre) * prod_adj (pre ++ [x]) l')%Z
  end.

Fixpoint sign_of (k : nat) (qs : list nat) : Z :=
  match k, qs with
  | S k', p :: ps => (pow_neg1 (Z.of_nat p) * sign_of k' (compress p <$> ps))%Z
  | _, _ => 1%Z
  end.

(** ** Locality of the decomposition

    A computation that only touches the array it is given runs on a store
    [h ++ [m]], at the last reference, as it runs on the store [[m]]. *)

Definition local {A} (c : loc → St A) : Prop :=
  ∀ (h : heap) (m : matrix), ∃ r m',
    c 0 [m] = (r, [m']) ∧ c (length h) (h ++ [m]) = (r, h ++ [m']).

(** ** The invariant of the pivot search

    [pivot_inv] holds of the lists between two columns of [_pivot];
    [search_post] describes the lists after a successful search for column
    [c], in which [solvable] records the columns whose row may have
    changed. *)

Definition nonzero_diag (M : matrix) (P : list nat) : Prop :=
  ∀ c r, P !! c = Some r → fnonzero (entry M r c) = true.

Definition pivot_inv (M : matrix) (used P : list nat) : Prop :=
  NoDup P ∧ used ≡ₚ P ∧ (∀ r, r ∈ P → r < length M) ∧ nonzero_diag M P.

Definition solvable (f : nat) (M : matrix) (used P : list nat) (p : nat) : Prop :=
  (_check_unused p M used P).1 = true ∨
  ∃ f' st, f' < f ∧ _repivot_used f' p M used P = Ok (true, st).

Definition freed (P : list nat) (c : nat) : list nat := option_list (P !! c).

Definition search_post (f : nat) (M : matrix) (used P : list nat) (c : nat) (st : lists) : Prop :=
  ∃ u, (u ∉ used) ∧ u < length M ∧ st.1 = used ++ [u] ∧
       length st.2 = length P `max` S c ∧
       freed P c ++ st.2 ≡ₚ u :: P ∧
       nonzero_diag M st.2 ∧
       ∀ p, p ≠ c → st.2 !! p ≠ P !! p → solvable f M used P p.

(** ** The decomposition as a function of the working matrix

    The loops of [LU] write one array only; [crout] is what they compute
    from its content (see [run_crout] below). *)

(** [for k in ks: a -= m[i, k] * m[k, j]]. *)
Definition products_from (m : matrix) (i j : nat) (ks : list nat) (a : float) : float :=
  foldl (λ acc k, fsub acc (fmul (entry m i k) (entry m k j))) a ks.

(** The values written at [(i, j)] by the first and by the second inner
    loop of column [j]. *)
Definition upper_value (m : matrix) (j i : nat) : float :=
  products_from m i j (range 0 i) (entry m i j).

Definition lower_value (m : matrix) (j i : nat) : float :=
  fdiv (products_from m i j (range 0 j) (entry m i j)) (entry m j j).

Definition column_pass (n : nat) (m : matrix) (j : nat) : matrix :=
  foldl (λ m i, set_entry m i j (lower_value m j i))
        (foldl (λ m i, set_entry m i j (upper_value m j i)) m (range 0 (j + 1)))
        (range (j + 1) n).

Definition crout (m : matrix) : matrix :=
  foldl (column_pass (length m)) m (range 0 (length m)).

(** ** Finite values *)

(** A finite float64 value: a rational in lowest terms that rounding
    leaves as it is. *)
Definition finite (x : float) : Prop :=
  match x with Fin q => round64 q = Fin q | _ => False end.

(** The rational a finite value denotes. *)
Definition val (x : float) : Q :=
  match x with Fin q => q | _ => 0%Q end.

Definition finite_matrix (n : nat) (C : matrix) : Prop :=
  ∀ r c, r < n → c < n → finite (entry C r c).

(** ** The loop of [invert] as a function *)

(** The columns [invert] collects for the indices [ks], after [acc]. *)
Fixpoint inverse_columns (L U : matrix) (P : list (list Z)) (n : nat) (ks : list nat)
    (acc : matrix) : result matrix :=
  match ks with
  | [] => Ok acc
  | i :: ks' =>
      x ← fb_sub L U P (unit_vector n i);
      x ← reshape_flat x n;
      inverse_columns L U P n ks' (acc ++ [x])
  end.

(** * Properties *)

(** ** The order on the entries *)

Lemma Qeq_bool_false a b : Qeq_bool a b = false → ¬ (a == b)%Q.
Proof. intros H E. apply Qeq_bool_iff in E. congruence. Qed.

Lemma Qle_bool_false a b : Qle_bool a b = false → (b < a)%Q.
Proof.
  intros H. apply Qnot_le_lt. intros E. apply Qle_bool_iff in E. congruence.
Qed.

Ltac q_bool :=
  repeat match goal with
  | H : context [Qeq_bool ?a ?b] |- _ =>
      let E := fresh "E" in
      destruct (Qeq_bool a b) eqn:E;
      [apply Qeq_bool_iff in E | apply Qeq_bool_false in E]
  | |- context [Qeq_bool ?a ?b] =>
      let E := fresh "E" in
      destruct (Qeq_bool a b) eqn:E;
      [apply Qeq_bool_iff in E | apply Qeq_bool_false in E]
  | H : context [Qle_bool ?a ?b] |- _ =>
      let E := fresh "E" in
      destruct (Qle_bool a b) eqn:E;
      [apply Qle_bool_iff in E | apply Qle_bool_false in E]
  | |- context [Qle_bool ?a ?b] =>
      let E := fresh "E" in
      destruct (Qle_bool a b) eqn:E;
      [apply Qle_bool_iff in E | apply Qle_bool_false in E]
  end.

Ltac q_order :=
  q_bool; simpl in *;
  try done; try (exfalso; lra);
  repeat match goal with
  | H : (_ <? _) = true |- _ => apply Nat.ltb_lt in H
  | H : (_ <? _) = false |- _ => apply Nat.ltb_ge in H
  | |- (_ <? _) = true => apply Nat.ltb_lt
  | |- (_ <? _) = false => apply Nat.ltb_ge
  end; try lia.

Lemma entry_lt_asym (a b : float * nat) :
  entry_lt a b = true → entry_lt b a = false.
Proof.
  destruct a as [[x| | |] r], b as [[y| | |] s];
    unfold entry_lt; simpl; try done; intros; q_order.
Qed.

Lemma entry_lt_negtrans (a b c : float * nat) :
  is_nan a.1 = false → is_nan b.1 = false → is_nan c.1 = false →
  entry_lt a b = false → entry_lt b c = false → entry_lt a c = false.
Proof.
  destruct a as [[x| | |] r], b as [[y| | |] s], c as [[z| | |] t];
    unfold entry_lt; simpl; try done; intros; q_order.
Qed.

(** What "not below" means for the two components. *)
Lemma entry_lt_false_le (x y : float) (r s : nat) :
  is_nan x = false → is_nan y = false →
  entry_lt (x, r) (y, s) = false →
  fleb y x = true ∧ (feqb y x = true → s ≤ r).
Proof.
  destruct x as [x| | |], y as [y| | |];
    unfold entry_lt; simpl; try done; intros; split; intros; q_order.
Qed.

(** ** Sorting *)

Lemma insert_desc_perm x l : insert_desc x l ≡ₚ x :: l.
Proof.
  induction l as [|y l IH]; simpl; [done|].
  destruct (entry_lt x y); [|done].
  rewrite IH. apply Permutation_swap.
Qed.

Lemma sort_reverse_perm l : sort_reverse l ≡ₚ l.
Proof.
  induction l as [|x l IH]; simpl; [done|].
  rewrite insert_desc_perm. by rewrite IH.
Qed.

Lemma sort_reverse_nil l : sort_reverse l = [] → l = [].
Proof.
  intros H. apply Permutation_nil_r. rewrite <- H. by rewrite sort_reverse_perm.
Qed.

Lemma insert_desc_head x l e rest :
  insert_desc x l = e :: rest →
  (e = x ∧ ∀ y l', l = y :: l' → entry_lt x y = false) ∨
  (∃ l', l = e :: l' ∧ entry_lt x e = true).
Proof.
  destruct l as [|y l']; simpl.
  - intros [= <- <-]. left. split; [done|]. intros ?? [=].
  - destruct (entry_lt x y) eqn:E.
    + intros [= <- <-]. right. eauto.
    + intros [= <- <-]. left. split; [done|]. by intros ?? [= <- <-].
Qed.

(** The first of the sorted entries is below none of them. *)
Lemma sort_reverse_head_max l e rest :
  Forall (λ z, is_nan z.1 = false) l →
  sort_reverse l = e :: rest →
  ∀ z, z ∈ l → entry_lt e z = false.
Proof.
  revert e rest. induction l as [|x l IH]; intros e rest Hn Hs z Hz.
  { by apply elem_of_nil in Hz. }
  apply Forall_cons in Hn as [Hx Hn]. simpl in Hs.
  assert (He : is_nan e.1 = false).
  { assert (e ∈ insert_desc x (sort_reverse l)) as Hin by (rewrite Hs; left).
    rewrite insert_desc_perm, sort_reverse_perm in Hin.
    apply elem_of_cons in Hin as [->|Hin]; [done|].
    by eapply (proj1 (Forall_forall _ _) Hn). }
  assert (Hz' : is_nan z.1 = false).
  { apply elem_of_cons in Hz as [->|Hz]; [done|].
    by eapply (proj1 (Forall_forall _ _) Hn). }
  apply insert_desc_head in Hs as [[-> Hhd]|(l' & Hl & Hlt)].
  - apply elem_of_cons in Hz as [->|Hz].
    + destruct (entry_lt x x) eqn:E; [|done].
      by rewrite (entry_lt_asym _ _ E) in E.
    + destruct (sort_reverse l) as [|y l'] eqn:Hsl.
      { apply sort_reverse_nil in Hsl. subst l. by apply elem_of_nil in Hz. }
      assert (is_nan y.1 = false) as Hy.
      { assert (y ∈ sort_reverse l) as Hin by (rewrite Hsl; left).
        rewrite sort_reverse_perm in Hin.
        by eapply (proj1 (Forall_forall _ _) Hn). }
      eapply (entry_lt_negtrans x y z); eauto.
  - apply elem_of_cons in Hz as [->|Hz].
    + by apply entry_lt_asym.
    + eapply IH; eauto.
Qed.

(** ** Direct assignment *)

Lemma elem_of_candidates col M used v i :
  (v, i) ∈ candidates col M used ↔
  v = entry M i col ∧ i < length M ∧ (i ∉ used) ∧ fnonzero (entry M i col) = true.
Proof.
  unfold candidates. rewrite list_elem_of_fmap. split.
  - intros (k & [= -> ->] & Hk). apply list_elem_of_filter in Hk as [[Hu Hz] Hk].
    apply elem_of_seq in Hk. apply Is_true_true in Hz. repeat split; try done; lia.
  - intros (-> & Hi & Hu & Hz). exists i. split; [done|].
    apply list_elem_of_filter. split; [split; [done|by apply Is_true_true]|].
    apply elem_of_seq. lia.
Qed.

Lemma candidates_not_nan col M used :
  numeric_column col M used → Forall (λ z, is_nan z.1 = false) (candidates col M used).
Proof.
  intros HM. apply Forall_forall. intros [v i] Hin.
  apply elem_of_candidates in Hin as (-> & _ & Hu & _). by apply HM.
Qed.

Lemma check_unused_false col M used P st :
  _check_unused col M used P = (false, st) →
  st = (used, P) ∧ candidates col M used = [].
Proof.
  unfold _check_unused.
  destruct (sort_reverse (candidates col M used)) as [|e rest] eqn:Hs; [|done].
  intros [= <-]. split; [done|]. by apply sort_reverse_nil.
Qed.

Lemma check_unused_true col M used P st :
  _check_unused col M used P = (true, st) →
  ∃ row, st = (used ++ [row], assign P col row) ∧
    (entry M row col, row) ∈ candidates col M used ∧
    (numeric_column col M used →
     ∀ z, z ∈ candidates col M used → entry_lt (entry M row col, row) z = false).
Proof.
  unfold _check_unused.
  destruct (sort_reverse (candidates col M used)) as [|[v row] rest] eqn:Hs; [done|].
  intros [= <-]. exists row.
  assert ((v, row) ∈ candidates col M used) as Hin.
  { rewrite <- sort_reverse_perm, Hs. left. }
  pose proof Hin as Hin'. apply elem_of_candidates in Hin' as (-> & _).
  split; [done|]. split; [done|]. intros HM z Hz.
  eapply sort_reverse_head_max; [by apply candidates_not_nan|exact Hs|exact Hz].
Qed.

Lemma check_unused_some col M used P i :
  i < length M → i ∉ used → fnonzero (entry M i col) = true →
  ∃ st, _check_unused col M used P = (true, st).
Proof.
  intros Hi Hu Hz. unfold _check_unused.
  destruct (sort_reverse (candidates col M used)) as [|e rest] eqn:Hs; [|eauto].
  apply sort_reverse_nil in Hs.
  assert ((entry M i col, i) ∈ candidates col M used) as Hin
    by by apply elem_of_candidates.
  rewrite Hs in Hin. by apply elem_of_nil in Hin.
Qed.

Lemma assign_lookup P col row :
  col ≤ length P → assign P col row !! col = Some row.
Proof.
  intros Hc. unfold assign. case_decide.
  - by apply list_lookup_insert_eq.
  - assert (col = length P) as -> by lia. apply list_lookup_middle. done.
Qed.

(** C7, as the code has it: in the direct-assignment step, when no
    unused row holds a nan in the current column and some unused row has
    a non-zero entry in it, the step succeeds with a row that is unused,
    has a non-zero entry and whose entry is the largest (by signed value)
    among those of the unused rows with a non-zero entry; the row is
    appended to [used] and written at [P[col]]. *)
Theorem check_unused_selects_largest (n : nat) (M : matrix) (col : nat) (used P : list nat) (i : nat) :
  square n M → numeric_column col M used → col < n → col ≤ length P →
  i < n → i ∉ used → fnonzero (entry M i col) = true →
  ∃ row,
    _check_unused col M used P = (true, (used ++ [row], assign P col row)) ∧
    assign P col row !! col = Some row ∧
    row < n ∧ (row ∉ used) ∧ fnonzero (entry M row col) = true ∧
    ∀ k, k < n → k ∉ used → fnonzero (entry M k col) = true →
         fleb (entry M k col) (entry M row col) = true.
Proof.
  intros [Hlen _] HM Hcol HP Hi Hu Hz. subst n.
  destruct (check_unused_some col M used P i) as [st Hst]; [done..|].
  destruct (check_unused_true _ _ _ _ _ Hst) as (row & -> & Hin & Hmax).
  exists row. apply elem_of_candidates in Hin as (_ & Hr & Hru & Hrz).
  repeat split; try done; [by apply assign_lookup|].
  intros k Hk Hku Hkz.
  assert ((entry M k col, k) ∈ candidates col M used) as Hkin
    by by apply elem_of_candidates.
  apply (Hmax HM) in Hkin.
  apply entry_lt_false_le in Hkin as [Hle _]; auto.
Qed.

Lemma square_scenario : square 3 scenario.
Proof. split; [reflexivity|]. repeat constructor. Qed.

Lemma numeric_scenario col used : numeric_column col scenario used.
Proof.
  intros r _. unfold entry.
  do 3 (destruct r as [|r]; [do 3 (destruct col as [|col]; [done|]); done|]). done.
Qed.

Lemma check_unused_selects_largest_witness :
  ∃ row,
    _check_unused 0 scenario [] [] = (true, ([] ++ [row], assign [] 0 row)) ∧
    assign [] 0 row !! 0 = Some row ∧
    row < 3 ∧ (row ∉ @nil nat) ∧ fnonzero (entry scenario row 0) = true ∧
    ∀ k, k < 3 → k ∉ @nil nat → fnonzero (entry scenario k 0) = true →
         fleb (entry scenario k 0) (entry scenario row 0) = true.
Proof.
  apply (check_unused_selects_largest 3 scenario 0 [] [] 0).
  - exact square_scenario.
  - apply numeric_scenario.
  - lia.
  - simpl. lia.
  - lia.
  - apply not_elem_of_nil.
  - reflexivity.
Defined.

(** With a nan in the column the claim fails: the comparisons with the
    nan are all false, [entries.sort(reverse=True)] leaves [(2.0, 1)]
    first in [[(1.0, 0), (2.0, 1), (nan, 2), (3.0, 3)]], and row 1 is
    selected although the unused row 3 holds the larger entry 3. *)
Lemma check_unused_nan_not_largest :
  square 4 nan_column_example ∧
  _check_unused 0 nan_column_example [] [] = (true, ([1], [1])) ∧
  (3 ∉ @nil nat) ∧ fnonzero (entry nan_column_example 3 0) = true ∧
  fleb (entry nan_column_example 3 0) (entry nan_column_example 1 0) = false.
Proof.
  split_and!; try reflexivity.
  - split; [reflexivity|]. repeat constructor.
  - apply not_elem_of_nil.
Qed.

(** C10, as the code has it: when no unused row holds a nan in the
    column, no entry of an unused row with a non-zero entry in the column
    exceeds the selected one, and every such row whose entry equals the
    selected one has an index at most that of the selected row: ties are
    broken towards the largest row index. *)
Theorem check_unused_tie_break (n : nat) (M : matrix) (col : nat) (used P : list nat) (row : nat) :
  square n M → numeric_column col M used → col < n →
  _check_unused col M used P = (true, (used ++ [row], assign P col row)) →
  ∀ k, k < n → k ∉ used → fnonzero (entry M k col) = true →
       fleb (entry M k col) (entry M row col) = true ∧
       (feqb (entry M k col) (entry M row col) = true → k ≤ row).
Proof.
  intros [Hlen _] HM Hcol Hst k Hk Hku Hkz. subst n.
  destruct (check_unused_true _ _ _ _ _ Hst) as (row' & [= Hrow _] & Hin & Hmax).
  apply app_inj_tail in Hrow as [_ <-].
  assert ((entry M k col, k) ∈ candidates col M used) as Hkin
    by by apply elem_of_candidates.
  apply (Hmax HM) in Hkin.
  assert (row ∉ used) as Hru.
  { by apply elem_of_candidates in Hin as (_ & _ & Hu & _). }
  apply entry_lt_false_le in Hkin; auto.
Qed.

Lemma check_unused_tie_break_witness :
  _check_unused 0 tie_example [] [] = (true, ([1], [1])) ∧
  fleb (entry tie_example 0 0) (entry tie_example 1 0) = true ∧
  (feqb (entry tie_example 0 0) (entry tie_example 1 0) = true → 0 ≤ 1).
Proof.
  split; [reflexivity|].
  apply (check_unused_tie_break 2 tie_example 0 [] [] 1).
  - split; [reflexivity|]. repeat constructor.
  - intros r _. unfold entry. do 2 (destruct r as [|r]; [done|]). done.
  - lia.
  - reflexivity.
  - lia.
  - apply not_elem_of_nil.
  - reflexivity.
Defined.

(** With a nan in the column the claim fails: in
    [[(5.0, 0), (nan, 1), (5.0, 2)]] no comparison with the nan holds, the
    sort leaves [(5.0, 0)] first, and row 0 is selected although row 2
    holds the same entry. *)
Lemma check_unused_nan_tie :
  square 3 nan_tie_example ∧
  _check_unused 0 nan_tie_example [] [] = (true, ([0], [0])) ∧
  (2 ∉ @nil nat) ∧ fnonzero (entry nan_tie_example 2 0) = true ∧
  feqb (entry nan_tie_example 2 0) (entry nan_tie_example 0 0) = true ∧
  ¬ (2 ≤ 0).
Proof.
  split_and!; try reflexivity.
  - split; [reflexivity|]. repeat constructor.
  - apply not_elem_of_nil.
  - lia.
Qed.

(** ** Re-pivoting without end *)

Lemma _repivot_used_S fuel col M used P :
  _repivot_used (S fuel) col M used P =
    (entries ← used_entries col M P used;
     let entries := sort_reverse entries in
     '(ok, (used1, P1)) ← try_entries (λ c u p, Ok (_check_unused c M u p)) col entries used P;
     if ok : bool then Ok (true, (used1, P1))
     else try_entries (λ c u p, _repivot_used fuel c M u p) col entries used1 P1).
Proof. reflexivity. Qed.

Lemma try_entries_raise attempt col e rest used P c err :
  index P e.2 = Ok c →
  attempt c used P = Raise err →
  try_entries attempt col (e :: rest) used P = Raise err.
Proof. intros Hi Ha. simpl. rewrite Hi. simpl. rewrite Ha. reflexivity. Qed.

(** One level of [_repivot_used] when the entries are [es], no direct
    assignment frees a row, and the first recursive attempt, on column
    [c], exhausts the stack. *)
Lemma repivot_used_descends fuel col M used P es e rest c :
  used_entries col M P used = Ok es →
  sort_reverse es = e :: rest →
  try_entries (λ c u p, Ok (_check_unused c M u p)) col (e :: rest) used P = Ok (false, (used, P)) →
  index P e.2 = Ok c →
  _repivot_used fuel c M used P = Raise RecursionError →
  _repivot_used (S fuel) col M used P = Raise RecursionError.
Proof.
  intros He Hs H1 Hi Hc. rewrite _repivot_used_S, He. cbn [mbind result_bind].
  cbv zeta. rewrite Hs, H1. cbn [mbind result_bind].
  by apply try_entries_raise with (c := c).
Qed.

Lemma singular_example_cycle fuel :
  _repivot_used fuel 0 singular_example [1; 0] [1; 0] = Raise RecursionError ∧
  _repivot_used fuel 1 singular_example [1; 0] [1; 0] = Raise RecursionError.
Proof.
  induction fuel as [|fuel [IH0 IH1]]; [done|]. split.
  - by apply repivot_used_descends with (es := [(Fin 1, 0)]) (e := (Fin 1, 0)) (rest := []) (c := 1).
  - by apply repivot_used_descends with (es := [(Fin 1, 1)]) (e := (Fin 1, 1)) (rest := []) (c := 0).
Qed.

(** C3 (the code departs from it): on the singular matrix
    [[1,1,1],[1,1,1],[0,0,0]] the re-pivoting search for column 2, entered
    by [_pivot] with [used = P = [1, 0]], does not terminate: columns 0
    and 1 call each other without end, so whatever the depth of stack
    allowed the call ends in [RecursionError], and so does [_pivot]. *)
Theorem repivot_used_unbounded_recursion (fuel : nat) :
  _repivot_used fuel 2 singular_example [1; 0] [1; 0] = Raise RecursionError ∧
  _pivot fuel singular_example = Raise RecursionError.
Proof.
  assert (_repivot_used fuel 2 singular_example [1; 0] [1; 0] = Raise RecursionError) as H.
  { destruct fuel as [|fuel]; [done|].
    apply repivot_used_descends
      with (es := [(Fin 1, 1); (Fin 1, 0)]) (e := (Fin 1, 1)) (rest := [(Fin 1, 0)]) (c := 0);
      try done.
    apply singular_example_cycle. }
  split; [done|].
  unfold _pivot, pivot_list.
  change (pivot_loop fuel singular_example (seq 0 (length singular_example)) [] [])
    with (pivot_loop fuel singular_example [2] [1; 0] [1; 0]).
  simpl. by rewrite H.
Qed.

Lemma lookup_total_snoc `{Inhabited A} (l : list A) (x : A) :
  (l ++ [x]) !!! length l = x.
Proof. by apply list_lookup_total_middle. Qed.

Lemma LU_unfold fuel M h :
  LU fuel M h =
    let m := h !!! M in
    let h2 := (h ++ [m]) ++ [m] in
    match _pivot fuel m with
    | Raise e => (Raise e, h2)
    | Ok (P, n) =>
        match matmul (to_float P) m with
        | Raise e => (Raise e, h2)
        | Ok pm =>
            let l := length h2 in
            match for_ (range 0 (length pm)) (λ j _, crout_column l (length pm) j) () (h2 ++ [pm]) with
            | (Ok _, h3) => (Ok (P, n, _Lower (h3 !!! l), _Upper (h3 !!! l)), h3)
            | (Raise e, h3) => (Raise e, h3)
            end
        end
    end.
Proof.
  unfold LU, mbind, St_bind, load, alloc, lift, mret, St_ret. cbv zeta.
  rewrite !lookup_total_snoc.
  destruct (_pivot fuel (h !!! M)) as [[P n]|e]; [|done].
  destruct (matmul (to_float P) (h !!! M)) as [pm|e]; [|done].
  cbv beta. rewrite !lookup_total_snoc.
  destruct (for_ _ _ _ _) as [[[]|e] h3]; done.
Qed.

Lemma zero_column_example_cycle fuel :
  _repivot_used fuel 0 zero_column_example [1; 0] [1; 0] = Raise RecursionError ∧
  _repivot_used fuel 1 zero_column_example [1; 0] [1; 0] = Raise RecursionError.
Proof.
  induction fuel as [|fuel [IH0 IH1]]; [done|]. split.
  - by apply repivot_used_descends with (es := [(Fin 1, 0)]) (e := (Fin 1, 0)) (rest := []) (c := 1).
  - by apply repivot_used_descends with (es := [(Fin 1, 1)]) (e := (Fin 1, 1)) (rest := []) (c := 0).
Qed.

Lemma zero_column_example_pivot fuel :
  _pivot fuel zero_column_example = Raise RecursionError.
Proof.
  assert (_repivot_used fuel 2 zero_column_example [1; 0] [1; 0] = Raise RecursionError) as H.
  { destruct fuel as [|fuel]; [done|].
    apply repivot_used_descends
      with (es := [(Fin 1, 1); (Fin 1, 0)]) (e := (Fin 1, 1)) (rest := [(Fin 1, 0)]) (c := 0);
      try done.
    apply zero_column_example_cycle. }
  unfold _pivot, pivot_list.
  change (pivot_loop fuel zero_column_example (seq 0 (length zero_column_example)) [] [])
    with (pivot_loop fuel zero_column_example [2; 3] [1; 0] [1; 0]).
  simpl. by rewrite H.
Qed.

(** C6 (the code departs from it): the square matrix
    [[1,1,1,0],[1,1,1,0],[0,0,0,0],[0,0,0,0]] has an all-zero column, and
    [LU] does not raise the unpivotable-matrix error on it: the
    re-pivoting search of column 2 recurses without end before the zero
    column is reached, and the call ends in [RecursionError]. *)
Theorem LU_zero_column_recursion (fuel : nat) :
  square 4 zero_column_example ∧
  (∀ i, i < 4 → entry zero_column_example i 3 = Fin 0) ∧
  (LU fuel 0 [zero_column_example]).1 = Raise RecursionError.
Proof.
  split; [split; [done|repeat constructor]|]. split.
  - intros i Hi. do 4 (destruct i as [|i]; [done|]). lia.
  - rewrite LU_unfold. cbv zeta.
    change ([zero_column_example] !!! 0) with zero_column_example.
    by rewrite zero_column_example_pivot.
Qed.

(** ** The sign of the permutation *)

Lemma matrix_P_rows P : _matrix_P P = unit_row (length P) <$> P.
Proof.
  unfold _matrix_P, unit_row. apply list_eq. intros i.
  rewrite !list_lookup_fmap.
  destruct (P !! i) as [r|] eqn:Hi.
  - rewrite lookup_seq_lt by (by eapply lookup_lt_Some). simpl.
    by rewrite (list_lookup_total_correct _ _ _ Hi).
  - rewrite lookup_seq_ge; [done|]. by apply lookup_ge_None.
Qed.

Lemma sum_Z_cons x l : sum_Z (x :: l) = (x + sum_Z l)%Z.
Proof. done. Qed.

Lemma sum_Z_zero {A} (g : A → Z) l :
  (∀ j, j ∈ l → g j = 0%Z) → sum_Z (g <$> l) = 0%Z.
Proof.
  induction l as [|x l IH]; intros Hg; [done|].
  rewrite fmap_cons, sum_Z_cons, Hg, IH; [done| |left].
  intros j Hj. apply Hg. by right.
Qed.

Lemma sum_Z_single (g : nat → Z) p s len :
  s ≤ p < s + len →
  (∀ j, s ≤ j < s + len → j ≠ p → g j = 0%Z) →
  sum_Z (g <$> seq s len) = g p.
Proof.
  revert s. induction len as [|len IH]; intros s Hp Hg; [lia|].
  rewrite <- cons_seq, fmap_cons, sum_Z_cons.
  destruct (decide (s = p)) as [->|Hs].
  - rewrite sum_Z_zero; [lia|]. intros j Hj. apply elem_of_seq in Hj. apply Hg; lia.
  - rewrite Hg by lia. rewrite IH; [done|lia|]. intros j Hj. apply Hg. lia.
Qed.

Lemma unit_row_lookup len p j :
  j < len → unit_row len p !!! j = if decide (j = p) then 1%Z else 0%Z.
Proof.
  intros Hj. unfold unit_row. apply list_lookup_total_correct.
  rewrite list_lookup_fmap, lookup_seq_lt by done. done.
Qed.

Lemma length_unit_row len p : length (unit_row len p) = len.
Proof. unfold unit_row. by rewrite length_fmap, length_seq. Qed.

(** Expansion along a first row that is a unit vector. *)
Lemma det_rows_unit k len p rest :
  p < len →
  det_rows (S k) (unit_row len p :: rest) =
    (pow_neg1 (Z.of_nat p) * det_rows k (delete p <$> rest))%Z.
Proof.
  intros Hp. cbn [det_rows]. rewrite length_unit_row.
  rewrite (sum_Z_single _ p).
  - rewrite unit_row_lookup by done. cbv beta. rewrite decide_True by done. by rewrite Z.mul_1_r.
  - lia.
  - intros j Hj Hne. cbv beta.
    rewrite unit_row_lookup by lia. rewrite decide_False by done.
    by rewrite Z.mul_0_r.
Qed.

Lemma delete_unit_row len p q :
  p < len → q ≠ p →
  delete p (unit_row len q) = unit_row (len - 1) (compress p q).
Proof.
  intros Hp Hq. apply list_eq. intros i. unfold unit_row, compress.
  destruct (decide (i < p)) as [Hi|Hi].
  - rewrite list_lookup_delete_lt by done.
    rewrite !list_lookup_fmap, !lookup_seq_lt by lia. simpl.
    repeat case_decide; try done; lia.
  - rewrite list_lookup_delete_ge by lia. rewrite !list_lookup_fmap.
    destruct (decide (S i < len)) as [Hlt|Hge].
    + rewrite !lookup_seq_lt by lia. simpl. repeat case_decide; try done; lia.
    + rewrite !lookup_seq_ge by lia. done.
Qed.

Lemma compress_lt p q1 q2 :
  q1 ≠ p → q2 ≠ p → compress p q1 < compress p q2 ↔ q1 < q2.
Proof. unfold compress. repeat case_decide; lia. Qed.

Lemma compress_inj p q1 q2 :
  q1 ≠ p → q2 ≠ p → compress p q1 = compress p q2 → q1 = q2.
Proof. unfold compress. repeat case_decide; lia. Qed.

Lemma NoDup_compress p ps : p ∉ ps → NoDup ps → NoDup (compress p <$> ps).
Proof.
  intros Hp Hnd. induction Hnd as [|q ps Hq Hnd IH]; simpl; constructor.
  - rewrite list_elem_of_fmap. intros (q' & Heq & Hq').
    apply compress_inj in Heq; [by subst| |]; set_solver.
  - apply IH. set_solver.
Qed.

Lemma det_rows_sign_of k qs len :
  length qs = k → NoDup qs → (∀ q, q ∈ qs → q < len) →
  det_rows k (unit_row len <$> qs) = sign_of k qs.
Proof.
  revert qs len. induction k as [|k IH]; intros qs len Hlen Hnd Hb.
  { by destruct qs. }
  destruct qs as [|p ps]; [done|]. simpl in Hlen.
  apply NoDup_cons in Hnd as [Hp Hnd].
  rewrite fmap_cons, det_rows_unit by (apply Hb; left).
  cbn [sign_of]. f_equal.
  rewrite <- list_fmap_compose.
  rewrite (list_fmap_ext _ (unit_row (len - 1) ∘ compress p) ps).
  2:{ intros i q Hq. simpl. apply delete_unit_row; [apply Hb; left|].
      apply list_elem_of_lookup_2 in Hq. set_solver. }
  rewrite list_fmap_compose. apply IH.
  - rewrite length_fmap. lia.
  - by apply NoDup_compress.
  - intros q' Hq'. apply list_elem_of_fmap in Hq' as (q & -> & Hq).
    assert (q < len) by (apply Hb; by right).
    assert (p < len) by (apply Hb; left).
    assert (q ≠ p) by set_solver.
    unfold compress. case_decide; lia.
Qed.

Lemma adjusted_rank_count v i x :
  adjusted_rank v i x = (Z.of_nat x - count_below x (take (i + 1) v))%Z.
Proof.
  unfold adjusted_rank, count_below.
  generalize (take (i + 1) v) as l. generalize (Z.of_nat x) as a.
  intros a l. revert a. induction l as [|y l IH]; intros a; simpl; [lia|].
  rewrite IH. rewrite filter_cons.
  destruct (Nat.ltb_spec y x); case_decide; simpl; lia.
Qed.

Lemma count_below_cons x y l :
  count_below x (y :: l) = ((if decide (y < x)%nat then 1 else 0) + count_below x l)%Z.
Proof. unfold count_below. rewrite filter_cons. case_decide; simpl; lia. Qed.

Lemma count_below_app x l1 l2 :
  count_below x (l1 ++ l2) = (count_below x l1 + count_below x l2)%Z.
Proof. unfold count_below. rewrite filter_app, length_app. lia. Qed.

Lemma count_below_compress p x l :
  x ≠ p → p ∉ l → count_below (compress p x) (compress p <$> l) = count_below x l.
Proof.
  intros Hx. induction l as [|y l IH]; intros Hp; [done|].
  rewrite fmap_cons, !count_below_cons, IH by set_solver.
  assert (y ≠ p) by set_solver.
  pose proof (compress_lt p y x).
  repeat case_decide; lia.
Qed.

Lemma prod_adj_compress p pre l :
  p ∉ pre → p ∉ l →
  prod_adj (p :: pre) l = prod_adj (compress p <$> pre) (compress p <$> l).
Proof.
  revert pre. induction l as [|x l IH]; intros pre Hpre Hl; [done|].
  rewrite fmap_cons. cbn [prod_adj].
  assert (x ≠ p) by set_solver.
  assert (p ∉ pre ++ [x]) as Hpx.
  { rewrite not_elem_of_app, list_elem_of_singleton. split; [done|congruence]. }
  assert (p ∉ l) by (by apply not_elem_of_cons in Hl as [_ ?]).
  rewrite <- fmap_snoc. rewrite <- IH; [|done|done]. f_equal. f_equal.
  rewrite count_below_cons, count_below_compress by done.
  unfold compress. repeat case_decide; lia.
Qed.

Lemma sign_of_prod_adj k l :
  length l = k → NoDup l → sign_of k l = prod_adj [] l.
Proof.
  revert l. induction k as [|k IH]; intros l Hlen Hnd.
  { by destruct l. }
  destruct l as [|p ps]; [done|]. simpl in Hlen.
  apply NoDup_cons in Hnd as [Hp Hnd].
  cbn [sign_of prod_adj]. rewrite IH.
  - change ([] ++ [p]) with [p].
    rewrite (prod_adj_compress p [] ps); [|apply not_elem_of_nil|done].
    unfold count_below. simpl. by rewrite Z.sub_0_r.
  - rewrite length_fmap. lia.
  - by apply NoDup_compress.
Qed.

(** The loop of [_det_P], started after the first [k + 1] entries [pre]. *)
Lemma det_P_loop v pre l rest k a :
  v = pre ++ l ++ rest → length pre = k + 1 →
  foldl (λ n '(i, vi), (n * pow_neg1 (adjusted_rank v i vi))%Z) a
        (imap (λ i, pair (k + i)) l) =
  (a * prod_adj pre l)%Z.
Proof.
  revert pre k a. induction l as [|x l IH]; intros pre k a Hv Hk.
  { simpl. lia. }
  cbn [imap foldl prod_adj].
  rewrite (imap_ext _ (λ i, pair (S k + i))) by (intros; simpl; f_equal; lia).
  rewrite (IH (pre ++ [x]) (S k)).
  - rewrite adjusted_rank_count. rewrite Hv.
    replace (k + 0 + 1) with (length pre) by lia.
    rewrite take_app_length. lia.
  - rewrite Hv. by rewrite <- !app_assoc.
  - rewrite length_app. simpl. lia.
Qed.

Lemma prod_adj_app pre l1 l2 :
  prod_adj pre (l1 ++ l2) = (prod_adj pre l1 * prod_adj (pre ++ l1) l2)%Z.
Proof.
  revert pre. induction l1 as [|x l1 IH]; intros pre.
  { rewrite app_nil_r. simpl. lia. }
  simpl. rewrite IH, <- app_assoc. simpl. lia.
Qed.

Lemma count_below_seq x n : count_below x (seq 0 n) = Z.of_nat (x `min` n).
Proof.
  induction n as [|n IH]; [unfold count_below; simpl; lia|].
  rewrite seq_S, count_below_app, IH, count_below_cons.
  unfold count_below at 1. simpl. case_decide; lia.
Qed.

Lemma count_below_perm x l1 l2 : l1 ≡ₚ l2 → count_below x l1 = count_below x l2.
Proof. intros H. unfold count_below. by rewrite H. Qed.

Lemma pow_neg1_cases z : pow_neg1 z = 1%Z ∨ pow_neg1 z = (-1)%Z.
Proof. unfold pow_neg1. destruct (Z.even z); auto. Qed.

Lemma prod_adj_cases pre l : prod_adj pre l = 1%Z ∨ prod_adj pre l = (-1)%Z.
Proof.
  revert pre. induction l as [|x l IH]; intros pre; simpl; [auto|].
  destruct (pow_neg1_cases (Z.of_nat x - count_below x pre)) as [->| ->],
    (IH (pre ++ [x])) as [->| ->]; auto.
Qed.

(** On a permutation of [0..n-1] the loop, which leaves the last entry
    out, computes the product over all the entries. *)
Lemma det_P_prod_adj v :
  v ≠ [] → v ≡ₚ seq 0 (length v) → _det_P v = Ok (prod_adj [] v).
Proof.
  intros Hv Hperm. destruct v as [|v0 vs]; [done|]. clear Hv.
  unfold _det_P, enumerate. f_equal.
  destruct (decide (vs = [])) as [->|Hvs].
  { simpl. unfold count_below. simpl. rewrite Z.sub_0_r. lia. }
  destruct (exists_last Hvs) as (mid & last & ->).
  replace (drop 1 (take (length (v0 :: mid ++ [last]) - 1) (v0 :: mid ++ [last])))
    with mid.
  2:{ simpl. rewrite Nat.sub_0_r, length_app, Nat.add_1_r. simpl.
      by rewrite take_app_length. }
  rewrite (imap_ext _ (λ i, pair (0 + i))) by done.
  rewrite (det_P_loop _ [v0] mid [last] 0) by done.
  cbn [prod_adj]. change ([] ++ [v0]) with [v0].
  rewrite prod_adj_app. cbn [prod_adj].
  assert (Z.of_nat last - count_below last ([v0] ++ mid) = 0)%Z as ->.
  { assert (last < length (v0 :: mid ++ [last])) as Hlt.
    { assert (last ∈ seq 0 (length (v0 :: mid ++ [last]))) as Hin
        by (rewrite <- Hperm; set_solver).
      apply elem_of_seq in Hin. lia. }
    pose proof (count_below_perm last _ _ Hperm) as Hc.
    rewrite count_below_seq in Hc.
    change (v0 :: mid ++ [last]) with (([v0] ++ mid) ++ [last]) in Hc at 1.
    rewrite count_below_app, (count_below_cons last last) in Hc.
    rewrite decide_False in Hc by lia. unfold count_below at 2 in Hc.
    simpl in Hc, Hlt |- *. lia. }
  unfold count_below at 1. simpl.
  change (pow_neg1 0) with 1%Z. rewrite Z.sub_0_r. lia.
Qed.

(** C4, as the code has it: for every non-empty list [P] that is a
    permutation of [0..n-1], [_det_P P] returns [+1] or [-1], and the value
    is the determinant of the permutation matrix [_matrix_P P]. *)
Theorem det_P_sign (P : list nat) :
  P ≠ [] → P ≡ₚ seq 0 (length P) →
  ∃ s, _det_P P = Ok s ∧ (s = 1%Z ∨ s = (-1)%Z) ∧ s = det (_matrix_P P).
Proof.
  intros HP Hperm. exists (prod_adj [] P). split; [by apply det_P_prod_adj|].
  split; [apply prod_adj_cases|].
  assert (NoDup P) as Hnd by (rewrite Hperm; apply NoDup_seq).
  unfold det. rewrite matrix_P_rows, length_fmap.
  rewrite det_rows_sign_of, sign_of_prod_adj; try done.
  intros q Hq. rewrite Hperm in Hq. apply elem_of_seq in Hq. lia.
Qed.

Lemma det_P_empty : _det_P [] = Raise IndexError.
Proof. reflexivity. Qed.

Lemma det_P_sign_witness :
  ∃ s, _det_P [2; 0; 1] = Ok s ∧ (s = 1%Z ∨ s = (-1)%Z) ∧ s = det (_matrix_P [2; 0; 1]).
Proof.
  apply (det_P_sign [2; 0; 1]).
  - discriminate.
  - simpl. apply (Permutation_cons_app [0; 1] [] 2). reflexivity.
Defined.

(** ** The store, and the convenience entry point *)

Lemma local_ret {A} (a : A) : local (λ _, mret a).
Proof. intros h m. by exists (Ok a), m. Qed.

Lemma local_bind {A B} (c : loc → St A) (k : loc → A → St B) :
  local c → (∀ a, local (λ l, k l a)) → local (λ l, c l ≫= k l).
Proof.
  intros Hc Hk h m. destruct (Hc h m) as (r & m1 & H0 & Hh).
  unfold mbind, St_bind. rewrite H0, Hh.
  destruct r as [a|e]; [|by exists (Raise e), m1].
  apply Hk.
Qed.

Lemma local_get i j : local (λ l, get l i j).
Proof.
  intros h m. exists (Ok (entry m i j)), m. unfold get.
  by rewrite lookup_total_snoc.
Qed.

Lemma local_set i j x : local (λ l, set l i j x).
Proof.
  intros h m. exists (Ok ()), (set_entry m i j x). unfold set. split; [done|].
  f_equal. rewrite alter_app_r_alt by done. by rewrite Nat.sub_diag.
Qed.

Lemma local_for {A} (body : loc → nat → A → St A) xs a :
  (∀ x a, local (λ l, body l x a)) → local (λ l, for_ xs (body l) a).
Proof.
  intros Hb. revert a. induction xs as [|x xs IH]; intros a; simpl.
  - apply local_ret.
  - apply (local_bind (λ l, body l x a) (λ l a', for_ xs (body l) a')); auto.
Qed.

Lemma local_subtract_products i j ks mij : local (λ l, subtract_products l i j ks mij).
Proof.
  unfold subtract_products.
  apply (local_for (λ l k mij, a ← get l i k; b ← get l k j; mret (fsub mij (fmul a b)))).
  intros k x.
  apply (local_bind (λ l, get l i k) (λ l a, b ← get l k j; mret (fsub x (fmul a b))));
    [apply local_get|]. intros a.
  apply (local_bind (λ l, get l k j) (λ l b, mret (fsub x (fmul a b))));
    [apply local_get|]. intros b. apply local_ret.
Qed.

Lemma local_upper_entry j i : local (λ l, upper_entry l j i).
Proof.
  unfold upper_entry.
  apply (local_bind (λ l, get l i j)
    (λ l mij, mij ← (if decide (i ≠ 0) then subtract_products l i j (range 0 i) mij
                     else mret mij); set l i j mij)); [apply local_get|].
  intros mij.
  apply (local_bind (λ l, if decide (i ≠ 0) then subtract_products l i j (range 0 i) mij
                           else mret mij) (λ l mij, set l i j mij)).
  - case_decide; [apply local_subtract_products|apply local_ret].
  - intros x. apply local_set.
Qed.

Lemma local_lower_entry j i : local (λ l, lower_entry l j i).
Proof.
  unfold lower_entry.
  apply (local_bind (λ l, get l i j)
    (λ l mij, mij ← subtract_products l i j (range 0 j) mij;
              d ← get l j j; set l i j (fdiv mij d))); [apply local_get|].
  intros mij.
  apply (local_bind (λ l, subtract_products l i j (range 0 j) mij)
    (λ l mij, d ← get l j j; set l i j (fdiv mij d))); [apply local_subtract_products|].
  intros x.
  apply (local_bind (λ l, get l j j) (λ l d, set l i j (fdiv x d))); [apply local_get|].
  intros d. apply local_set.
Qed.

Lemma local_crout_column n j : local (λ l, crout_column l n j).
Proof.
  unfold crout_column.
  apply (local_bind (λ l, for_ (range 0 (j + 1)) (λ i _, upper_entry l j i) ())
    (λ l _, for_ (range (j + 1) n) (λ i _, lower_entry l j i) ())).
  - apply (local_for (λ l i _, upper_entry l j i)). intros. apply local_upper_entry.
  - intros _. apply (local_for (λ l i _, lower_entry l j i)). intros. apply local_lower_entry.
Qed.

Lemma local_crout n : local (λ l, for_ (range 0 n) (λ j _, crout_column l n j) ()).
Proof.
  apply (local_for (λ l j _, crout_column l n j)). intros. apply local_crout_column.
Qed.

(** The store after [LU]: the arrays alive before the call, then the
    arrays [LU] has created. *)
Lemma LU_store fuel M h : ∃ h', (LU fuel M h).2 = h ++ h'.
Proof.
  rewrite LU_unfold. cbv zeta.
  destruct (_pivot fuel (h !!! M)) as [[P n]|e];
    [|eexists; simpl; by rewrite <- app_assoc].
  destruct (matmul (to_float P) (h !!! M)) as [pm|e];
    [|eexists; simpl; by rewrite <- app_assoc].
  destruct (local_crout (length pm) ((h ++ [h !!! M]) ++ [h !!! M]) pm)
    as (r & m' & _ & ->).
  destruct r as [[]|e]; eexists; simpl; by rewrite <- !app_assoc.
Qed.

(** C9: [LU] leaves the caller's matrix as it was, whether it returns or
    raises: the array behind the reference it is given, like every array
    alive before the call, is the same in the store after the call. *)
Theorem LU_preserves_caller_matrix (fuel : nat) (M : loc) (h : heap) (m : matrix) :
  h !! M = Some m →
  (LU fuel M h).2 !! M = Some m ∧ ∃ h', (LU fuel M h).2 = h ++ h'.
Proof.
  intros Hm. destruct (LU_store fuel M h) as [h' Hh']. split; [|eauto].
  rewrite Hh'. by apply lookup_app_l_Some.
Qed.

Lemma LU_preserves_caller_matrix_witness :
  (LU recursion_limit 0 [scenario]).2 !! 0 = Some scenario ∧
  ∃ h', (LU recursion_limit 0 [scenario]).2 = [scenario] ++ h'.
Proof. apply (LU_preserves_caller_matrix recursion_limit 0 [scenario] scenario). reflexivity. Defined.

(** The value [LU] returns depends on the matrix behind the reference
    only. *)
Lemma LU_result fuel M h : (LU fuel M h).1 = (LU fuel 0 [h !!! M]).1.
Proof.
  rewrite !LU_unfold. cbv zeta.
  change ([h !!! M] !!! 0) with (h !!! M).
  destruct (_pivot fuel (h !!! M)) as [[P n]|e]; [|done].
  destruct (matmul (to_float P) (h !!! M)) as [pm|e]; [|done].
  destruct (local_crout (length pm) ((h ++ [h !!! M]) ++ [h !!! M]) pm)
    as (r & m' & H0 & ->).
  destruct (local_crout (length pm) (([h !!! M] ++ [h !!! M]) ++ [h !!! M]) pm)
    as (r2 & m2 & H02 & ->).
  rewrite H0 in H02. injection H02 as <- <-.
  destruct r as [[]|e]; [|done]. simpl.
  by rewrite !lookup_total_snoc.
Qed.

Lemma as_column_idem b b' : as_column b = Ok b' → as_column b' = Ok b'.
Proof.
  unfold as_column, reshape_column.
  destruct b as [[|n [|[|[|c]] sh]] d]; simpl; try done;
    try (case_decide; [|done]); by intros [= <-].
Qed.

Lemma fb_sub_as_column L U P b b' :
  as_column b = Ok b' → fb_sub L U P b' = fb_sub L U P b.
Proof.
  intros Hb. unfold fb_sub. by rewrite Hb, (as_column_idem _ _ Hb).
Qed.

(** C8: without a cached decomposition [simul_solve] returns what
    [fb_sub] returns on the output of [LU]; with a cached decomposition it
    returns what [fb_sub] returns on the cached values, whatever the matrix
    and the stack depth, and creates no array but the float copy of [M]:
    [LU] is not run. *)
Theorem simul_solve_refines (fuel : nat) (M : loc) (b : ndarray) (h : heap) :
  (∀ x, (simul_solve fuel M b None None None None h).1 = Ok x ↔
        ∃ P n L U, (LU fuel M h).1 = Ok (P, n, L, U) ∧ fb_sub L U P b = Ok x) ∧
  (∀ P n L U,
     (simul_solve fuel M b (Some P) (Some n) (Some L) (Some U) h).1 = fb_sub L U P b ∧
     ((simul_solve fuel M b (Some P) (Some n) (Some L) (Some U) h).2 = h ∨
      (simul_solve fuel M b (Some P) (Some n) (Some L) (Some U) h).2 = h ++ [h !!! M])).
Proof.
  split.
  - intros x. unfold simul_solve, mbind, St_bind, lift, load, alloc, mret, St_ret.
    destruct (as_column b) as [b'|e] eqn:Hb.
    2:{ simpl. split; [done|]. intros (P & n & L & U & _ & Hx).
        unfold fb_sub in Hx. by rewrite Hb in Hx. }
    rewrite (surjective_pairing (LU fuel (length h) (h ++ [h !!! M]))).
    rewrite (LU_result fuel (length h)), lookup_total_snoc, <- (LU_result fuel M h).
    destruct (LU fuel M h).1 as [[[[P n] L] U]|e]; simpl.
    + rewrite (fb_sub_as_column _ _ _ _ _ Hb). split; [eauto 10|].
      by intros (P' & n' & L' & U' & [= <- <- <- <-] & Hx).
    + split; [done|]. by intros (P' & n' & L' & U' & [=] & _).
  - intros P n L U. unfold simul_solve, mbind, St_bind, lift, load, alloc, mret, St_ret.
    destruct (as_column b) as [b'|e] eqn:Hb; simpl.
    + rewrite (fb_sub_as_column _ _ _ _ _ Hb). auto.
    + unfold fb_sub. rewrite Hb. auto.
Qed.

(** ** A zero pivot *)

(** C2 (the code departs from it): the matrix [[1,1,0],[1,1,1],[0,1,1]] is
    invertible, [LU] returns on it, and the returned factors do not satisfy
    [P·M = L·U]: the rows are permuted to [[1,1,1],[1,1,0],[0,1,1]], whose
    second pivot is zero, the division by it yields an infinity in [L], and
    the product [L·U] holds nans. *)
Theorem LU_zero_pivot :
  det zero_pivot_int = (-1)%Z ∧
  (LU recursion_limit 0 [zero_pivot_example]).1 =
    Ok (zero_pivot_P, (-1)%Z, zero_pivot_L, zero_pivot_U) ∧
  matmul (to_float zero_pivot_P) zero_pivot_example =
    Ok (to_float [[1; 1; 1]; [1; 1; 0]; [0; 1; 1]]%Z) ∧
  matmul zero_pivot_L zero_pivot_U =
    Ok [[Fin 1; Fin 1; NaN]; [Fin 1; Fin 1; NaN]; [NaN; NaN; NaN]] ∧
  matrix_eqb (to_float [[1; 1; 1]; [1; 1; 0]; [0; 1; 1]]%Z)
             [[Fin 1; Fin 1; NaN]; [Fin 1; Fin 1; NaN]; [NaN; NaN; NaN]] = false.
Proof. repeat split; vm_compute; reflexivity. Qed.

(** C5 (the code departs from it): on the same invertible matrix and the
    right-hand side [1, 2, 3], [fb_sub] applied to the output of [LU]
    returns a vector of nans, and so does [simul_solve]; [M·x] is then a
    vector of nans, not [b]. *)
Theorem fb_sub_zero_pivot :
  det zero_pivot_int = (-1)%Z ∧
  (LU recursion_limit 0 [zero_pivot_example]).1 =
    Ok (zero_pivot_P, (-1)%Z, zero_pivot_L, zero_pivot_U) ∧
  fb_sub zero_pivot_L zero_pivot_U zero_pivot_P (vector [1; 2; 3]%Z) = Ok [NaN; NaN; NaN] ∧
  (simul_solve recursion_limit 0 (vector [1; 2; 3]%Z) None None None None
     [zero_pivot_example]).1 = Ok [NaN; NaN; NaN] ∧
  matmul zero_pivot_example [[NaN]; [NaN]; [NaN]] = Ok [[NaN]; [NaN]; [NaN]].
Proof. repeat split; vm_compute; reflexivity. Qed.

(** ** The pivot search returns a bijection onto non-zero entries *)

Lemma index_Ok P r i : index P r = Ok i → P !! i = Some r.
Proof.
  unfold index. destruct (list_find _ P) as [[j y]|] eqn:Hf; [|done].
  intros [= ->]. apply list_find_Some in Hf as (Hl & -> & _). done.
Qed.

Lemma bind_Ok {A B} (m : result A) (k : A → result B) b :
  m ≫= k = Ok b → ∃ a, m = Ok a ∧ k a = Ok b.
Proof. destruct m as [a|e]; [eauto|done]. Qed.

Lemma used_entries_spec col M P rows es :
  used_entries col M P rows = Ok es →
  ∀ e, e ∈ es →
    e.2 ∈ rows ∧ e.1 = entry M e.2 col ∧ fnonzero (entry M e.2 col) = true ∧
    ∃ i, index P e.2 = Ok i ∧ i ≠ col.
Proof.
  revert es. induction rows as [|row rows IH]; intros es Hes e He; simpl in Hes.
  { injection Hes as <-. by apply elem_of_nil in He. }
  apply bind_Ok in Hes as (keep & Hk & Hes).
  apply bind_Ok in Hes as (rest & Hr & Hes). injection Hes as <-.
  assert (e ∈ rest → e.2 ∈ row :: rows ∧ e.1 = entry M e.2 col ∧
            fnonzero (entry M e.2 col) = true ∧ ∃ i, index P e.2 = Ok i ∧ i ≠ col) as Hrest.
  { intros Hin. destruct (IH _ Hr _ Hin) as (? & ? & ? & ?). repeat split; try done. by right. }
  destruct keep; [|by auto].
  apply elem_of_cons in He as [->|He]; [|by auto]. simpl.
  destruct (fnonzero (entry M row col)) eqn:Hz; [|done].
  apply bind_Ok in Hk as (i & Hi & Hk). injection Hk as Hk.
  split; [left|]. split; [done|]. split; [done|]. exists i. split; [done|].
  apply negb_true_iff, Nat.eqb_neq in Hk. done.
Qed.

Section try_entries.
Context (attempt : nat → list nat → list nat → result (bool * lists)).
Context (col : nat) (used P : list nat).
Hypothesis attempt_false :
  ∀ c st, attempt c used P = Ok (false, st) → st = (used, P).

Lemma try_entries_true es st :
  try_entries attempt col es used P = Ok (true, st) →
  ∃ e uc st1, e ∈ es ∧ index P e.2 = Ok uc ∧
    attempt uc used P = Ok (true, st1) ∧ st = (st1.1, assign st1.2 col e.2).
Proof using attempt_false.
  induction es as [|e es IH]; simpl; [done|]. intros H.
  apply bind_Ok in H as (uc & Hi & H).
  apply bind_Ok in H as ([ok [used1 P1]] & Ha & H).
  destruct ok.
  - injection H as <-. exists e, uc, (used1, P1). repeat split; try done. left.
  - apply attempt_false in Ha as [= -> ->].
    destruct (IH H) as (e' & uc' & st1 & ? & ? & ? & ?).
    exists e', uc', st1. repeat split; try done. by right.
Qed.

Lemma try_entries_false es st :
  try_entries attempt col es used P = Ok (false, st) →
  st = (used, P) ∧
  ∀ e, e ∈ es → ∃ uc, index P e.2 = Ok uc ∧ attempt uc used P = Ok (false, (used, P)).
Proof using attempt_false.
  induction es as [|e es IH]; simpl.
  { intros [= <-]. split; [done|]. intros e He. by apply elem_of_nil in He. }
  intros H.
  apply bind_Ok in H as (uc & Hi & H).
  apply bind_Ok in H as ([ok [used1 P1]] & Ha & H).
  destruct ok; [done|].
  pose proof (attempt_false _ _ Ha) as [= -> ->].
  destruct (IH H) as [-> Hall]. split; [done|].
  intros e' [->|He']%elem_of_cons; eauto.
Qed.
End try_entries.

Lemma try_entries_mono att1 att2 col es used P r :
  (∀ c u p r, att1 c u p = Ok r → att2 c u p = Ok r) →
  try_entries att1 col es used P = Ok r →
  try_entries att2 col es used P = Ok r.
Proof.
  intros Hatt. revert used P. induction es as [|e es IH]; intros used P; simpl; [done|].
  intros H.
  apply bind_Ok in H as (uc & Hi & H).
  apply bind_Ok in H as ([ok [used1 P1]] & Ha & H).
  rewrite Hi. simpl. rewrite (Hatt _ _ _ _ Ha). simpl.
  destruct ok; [done|]. by apply IH.
Qed.

Lemma check_attempt_false M used P c st :
  (Ok (_check_unused c M used P) : result (bool * lists)) = Ok (false, st) → st = (used, P).
Proof. intros [= H]. by apply check_unused_false in H as [-> _]. Qed.

Lemma repivot_used_false f c M used P st :
  _repivot_used f c M used P = Ok (false, st) → st = (used, P).
Proof.
  revert c st. induction f as [|f IH]; intros c st; [done|].
  rewrite _repivot_used_S. intros H.
  apply bind_Ok in H as (es & Hes & H). cbv zeta in H.
  apply bind_Ok in H as ([ok [used1 P1]] & H1 & H).
  destruct ok; [done|].
  apply try_entries_false in H1 as [[= -> ->] _]; [|apply check_attempt_false].
  apply try_entries_false in H as [-> _]; [done|]. intros c' st'. apply IH.
Qed.

Lemma repivot_used_stable f f' c M used P r :
  _repivot_used f c M used P = Ok r → f ≤ f' → _repivot_used f' c M used P = Ok r.
Proof.
  revert f' c used P r. induction f as [|f IH]; intros f' c used P r; [done|].
  intros H Hle. destruct f' as [|f']; [lia|].
  rewrite _repivot_used_S in H |- *.
  apply bind_Ok in H as (es & Hes & H). cbv zeta in H.
  apply bind_Ok in H as ([ok [used1 P1]] & H1 & H).
  rewrite Hes. simpl. rewrite H1. simpl.
  destruct ok; [done|].
  eapply try_entries_mono; [|exact H]. intros c' u p r' Hr. apply IH; [done|lia].
Qed.

Lemma repivot_used_min_fuel f c M used P st :
  _repivot_used f c M used P = Ok (true, st) →
  ∃ g, g ≤ f ∧ _repivot_used g c M used P = Ok (true, st) ∧
       ∀ g' st', g' < g → _repivot_used g' c M used P ≠ Ok (true, st').
Proof.
  induction f as [|f IH]; [done|]. intros H.
  destruct (_repivot_used f c M used P) as [[[] st0]|e] eqn:Hf.
  - pose proof (repivot_used_stable _ (S f) _ _ _ _ _ Hf ltac:(lia)) as Hs.
    rewrite H in Hs. injection Hs as <-.
    destruct (IH eq_refl) as (g & Hg & Hr & Hmin). exists g. split; [lia|done].
  - exists (S f). repeat split; [done|done|]. intros g' st' Hg' Hr.
    pose proof (repivot_used_stable _ f _ _ _ _ _ Hr ltac:(lia)) as Hs.
    by rewrite Hf in Hs.
  - exists (S f). repeat split; [done|done|]. intros g' st' Hg' Hr.
    pose proof (repivot_used_stable _ f _ _ _ _ _ Hr ltac:(lia)) as Hs.
    by rewrite Hf in Hs.
Qed.

Lemma assign_lookup_ne P c x c' :
  c ≤ length P → c' ≠ c → assign P c x !! c' = P !! c'.
Proof.
  intros Hc Hne. unfold assign. case_decide.
  - by apply list_lookup_insert_ne.
  - assert (c = length P) as -> by lia.
    destruct (decide (c' < length P)).
    + by apply lookup_app_l.
    + rewrite !lookup_ge_None_2; [done|lia|rewrite length_app; simpl; lia].
Qed.

Lemma length_assign P c x :
  c ≤ length P → length (assign P c x) = length P `max` S c.
Proof.
  intros Hc. unfold assign. case_decide.
  - rewrite length_insert. lia.
  - rewrite length_app. simpl. lia.
Qed.

Lemma assign_perm P c x : c ≤ length P → freed P c ++ assign P c x ≡ₚ x :: P.
Proof.
  intros Hc. unfold freed, assign. case_decide as Hlt.
  - destruct (lookup_lt_is_Some_2 P c Hlt) as [old Hold]. rewrite Hold. simpl.
    rewrite insert_take_drop by done.
    rewrite <- (take_drop_middle P c old Hold) at 3.
    rewrite <- !Permutation_middle. apply Permutation_swap.
  - rewrite lookup_ge_None_2 by lia. simpl.
    by rewrite Permutation_app_comm.
Qed.

Lemma solvable_mono f g M used P p :
  g ≤ f → solvable g M used P p → solvable f M used P p.
Proof.
  intros Hle [H|(f' & st & Hf' & H)]; [by left|]. right. exists f', st. split; [lia|done].
Qed.

(** A successful direct assignment. *)
Lemma check_unused_post f M used P c st :
  nonzero_diag M P → c ≤ length P → _check_unused c M used P = (true, st) →
  search_post f M used P c st.
Proof.
  intros Hnz Hc Hst. apply check_unused_true in Hst as (u & -> & Hin & _).
  apply elem_of_candidates in Hin as (_ & Hu & Hnu & Hz).
  exists u. simpl. repeat split; try done.
  - by apply length_assign.
  - by apply assign_perm.
  - intros c' r Hr. destruct (decide (c' = c)) as [->|Hne].
    + rewrite assign_lookup in Hr by done. by injection Hr as <-.
    + rewrite assign_lookup_ne in Hr by done. by apply Hnz.
  - intros p Hp Hmod. by rewrite assign_lookup_ne in Hmod.
Qed.

(** The row [r] of column [uc] has been freed by a search for [uc] that
    left column [col] alone; giving [r] to [col] completes a search for
    [col]. *)
Lemma search_post_step f g M used P col uc r st1 :
  col ≤ length P → P !! uc = Some r → uc ≠ col →
  fnonzero (entry M r col) = true →
  search_post g M used P uc st1 →
  ¬ solvable g M used P col →
  solvable f M used P uc → g ≤ f →
  search_post f M used P col (st1.1, assign st1.2 col r).
Proof.
  intros Hcol Hr Hne Hz (u & Hu & Hlt & Hused & Hlen & Hperm & Hnz & Hmod) Hns Hs Hle.
  destruct st1 as [used1 P1]. simpl in *.
  assert (uc < length P) as Huc by by eapply lookup_lt_Some.
  assert (length P1 = length P) as HlenP by lia.
  assert (P1 !! col = P !! col) as Hsame.
  { destruct (decide (P1 !! col = P !! col)) as [|Hd]; [done|].
    destruct Hns. apply Hmod; [done|done]. }
  exists u. simpl. repeat split; try done.
  - rewrite length_assign by lia. lia.
  - unfold freed in *. rewrite <- Hsame. rewrite Hr in Hperm. simpl in Hperm.
    rewrite <- Hperm. apply assign_perm. lia.
  - intros c' r' Hr'. destruct (decide (c' = col)) as [->|Hc'].
    + rewrite assign_lookup in Hr' by lia. by injection Hr' as <-.
    + rewrite assign_lookup_ne in Hr' by lia. by apply Hnz.
  - intros p Hp Hmodp. rewrite assign_lookup_ne in Hmodp by lia.
    destruct (decide (p = uc)) as [->|Hpu]; [done|].
    eapply solvable_mono; [exact Hle|]. by apply Hmod.
Qed.

Lemma repivot_used_post f M used P c st :
  pivot_inv M used P → c ≤ length P →
  (_check_unused c M used P).1 = false →
  (∀ g' st', g' < f → _repivot_used g' c M used P ≠ Ok (true, st')) →
  _repivot_used f c M used P = Ok (true, st) →
  search_post f M used P c st.
Proof.
  intros (Hnd & Hperm & Hb & Hnz) . revert c st.
  induction f as [f IH] using lt_wf_ind. intros c st Hc Hchk Hmin H.
  destruct f as [|f]; [done|].
  rewrite _repivot_used_S in H.
  apply bind_Ok in H as (es & Hes & H). cbv zeta in H.
  apply bind_Ok in H as ([ok [used1 P1]] & H1 & H).
  assert (∀ e, e ∈ sort_reverse es → fnonzero (entry M e.2 c) = true ∧
            ∀ i, index P e.2 = Ok i → P !! i = Some e.2 ∧ i ≠ c) as Hent.
  { intros e He. rewrite sort_reverse_perm in He.
    destruct (used_entries_spec _ _ _ _ _ Hes e He) as (_ & _ & Hz & i & Hi & Hne).
    split; [done|]. intros i' Hi'. rewrite Hi in Hi'. injection Hi' as <-.
    split; [by apply index_Ok|done]. }
  assert (¬ solvable 0 M used P c) as Hns0.
  { intros [Ht|(f' & _ & ? & _)]; [congruence|lia]. }
  destruct ok.
  - injection H as <-.
    apply try_entries_true in H1 as (e & uc & st1 & He & Hi & Ha & ->);
      [|apply check_attempt_false].
    injection Ha as Ha.
    destruct (Hent e He) as [Hz Hidx]. destruct (Hidx _ Hi) as [Hl Hne].
    apply (search_post_step (S f) 0 M used P c uc e.2 st1); try done; try lia.
    + apply check_unused_post; [done| |done]. apply lookup_lt_Some in Hl. lia.
    + left. by rewrite Ha.
  - apply try_entries_false in H1 as [[= -> ->] Hall]; [|apply check_attempt_false].
    apply try_entries_true in H as (e & uc & st1 & He & Hi & Ha & ->);
      [|intros c' st'; apply repivot_used_false].
    destruct (Hent e He) as [Hz Hidx]. destruct (Hidx _ Hi) as [Hl Hne].
    destruct (repivot_used_min_fuel _ _ _ _ _ _ Ha) as (g & Hg & Hag & Hgmin).
    apply (search_post_step (S f) g M used P c uc e.2 st1); try done; try lia.
    + apply IH; try done; [lia| |].
      * apply lookup_lt_Some in Hl. lia.
      * destruct (Hall e He) as (uc' & Hi' & Hchk'). rewrite Hi in Hi'.
        injection Hi' as <-. injection Hchk' as Hchk'. by rewrite Hchk'.
    + intros [Ht|(f' & st' & Hf' & Hr)]; [congruence|].
      apply (Hmin f' st'); [lia|done].
    + right. exists f, st1. split; [lia|done].
Qed.

(** A search for the column after the last one extends the lists. *)
Lemma search_post_inv f M used P st :
  pivot_inv M used P → search_post f M used P (length P) st →
  pivot_inv M st.1 st.2 ∧ length st.2 = S (length P).
Proof.
  intros (Hnd & Hperm & Hb & Hnz) (u & Hu & Hlt & Hused & Hlen & HP & Hnz' & _).
  unfold freed in HP. rewrite lookup_ge_None_2 in HP by lia. simpl in HP.
  split; [|lia]. split; [|split; [|split]]; try done.
  - rewrite HP. apply NoDup_cons. split; [by rewrite <- Hperm|done].
  - rewrite Hused, HP, <- Hperm. by rewrite Permutation_app_comm.
  - intros r Hr. rewrite HP in Hr. apply elem_of_cons in Hr as [->|Hr]; auto.
Qed.

Lemma pivot_loop_inv fuel M k used P st :
  pivot_inv M used P →
  pivot_loop fuel M (seq (length P) k) used P = Ok st →
  pivot_inv M st.1 st.2 ∧ length st.2 = length P + k.
Proof.
  revert used P. induction k as [|k IH]; intros used P Hinv; simpl.
  { intros [= <-]. split; [done|simpl; lia]. }
  destruct (_check_unused (length P) M used P) as [ok [used1 P1]] eqn:Hchk.
  destruct ok.
  - intros H.
    destruct (search_post_inv 0 M used P (used1, P1)) as [Hinv1 Hlen1]; [done| |].
    { apply check_unused_post; [apply Hinv|done|done]. }
    simpl in Hlen1. rewrite <- Hlen1 in H.
    apply IH in H as [? ?]; [|done]. split; [done|lia].
  - assert ((_check_unused (length P) M used P).1 = false) as Hfst by by rewrite Hchk.
    apply check_unused_false in Hchk as [[= -> ->] _].
    intros H. apply bind_Ok in H as ([ok [used2 P2]] & Hr & H).
    destruct ok; [|done].
    destruct (repivot_used_min_fuel _ _ _ _ _ _ Hr) as (g & Hg & Hrg & Hmin).
    destruct (search_post_inv g M used P (used2, P2)) as [Hinv2 Hlen2]; [done| |].
    { by apply repivot_used_post. }
    simpl in Hlen2. rewrite <- Hlen2 in H.
    apply IH in H as [? ?]; [|done]. split; [done|lia].
Qed.

Lemma pivot_list_spec fuel M P :
  pivot_list fuel M = Ok P →
  P ≡ₚ seq 0 (length M) ∧ nonzero_diag M P.
Proof.
  unfold pivot_list. intros H. apply bind_Ok in H as ([used P'] & H & [= ->]).
  apply (pivot_loop_inv fuel M (length M) [] []) in H as [(Hnd & _ & Hb & Hnz) Hlen].
  2:{ split; [constructor|]. split; [done|]. split; [|done].
      intros r Hr. by apply elem_of_nil in Hr. }
  simpl in *. split; [|done].
  apply submseteq_length_Permutation.
  - apply NoDup_submseteq; [done|]. intros r Hr. apply elem_of_seq. specialize (Hb r Hr). lia.
  - rewrite length_seq. lia.
Qed.

(** C1: when the pivot search returns on a square matrix, the list [P] it
    has built (the permutation matrix returned is [_matrix_P P]) is a
    permutation of [0..n-1], every row index appears exactly once, and for
    every column [c] the entry [M[P[c], c]] is non-zero. *)
Theorem pivot_bijection_nonzero (n : nat) (M : matrix) (fuel : nat) (Pm : list (list Z)) (s : Z) :
  square n M →
  _pivot fuel M = Ok (Pm, s) →
  ∃ P, pivot_list fuel M = Ok P ∧ Pm = _matrix_P P ∧
       P ≡ₚ seq 0 n ∧
       ∀ c, c < n → ∃ r, P !! c = Some r ∧ fnonzero (entry M r c) = true.
Proof.
  intros [Hn _] H. unfold _pivot in H.
  apply bind_Ok in H as (P & HP & H). apply bind_Ok in H as (s' & _ & [= <- <-]).
  exists P. destruct (pivot_list_spec _ _ _ HP) as [Hperm Hnz]. subst n.
  repeat split; try done.
  intros c Hc.
  assert (c < length P) as Hlt by (by rewrite Hperm, length_seq).
  destruct (lookup_lt_is_Some_2 P c Hlt) as [r Hr]. exists r. split; [done|]. by eapply Hnz.
Qed.

(** The witness needs one re-pivoting: column 2 takes the row of column 1. *)
Lemma pivot_bijection_nonzero_witness :
  ∃ P, pivot_list recursion_limit zero_pivot_example = Ok P ∧
       zero_pivot_P = _matrix_P P ∧
       P ≡ₚ seq 0 3 ∧
       ∀ c, c < 3 → ∃ r, P !! c = Some r ∧ fnonzero (entry zero_pivot_example r c) = true.
Proof.
  apply (pivot_bijection_nonzero 3 zero_pivot_example recursion_limit _ (-1)%Z).
  - split; [reflexivity|]. repeat constructor.
  - vm_compute. reflexivity.
Defined.

(** ** A zero column *)

Lemma index_elem_of P r : r ∈ P → ∃ i, index P r = Ok i.
Proof.
  intros Hr. unfold index.
  destruct (list_find_elem_of (λ x, x = r) P r Hr eq_refl) as [[i y] ->]. eauto.
Qed.

Lemma used_entries_total col M P rows :
  (∀ r, r ∈ rows → r ∈ P) → ∃ es, used_entries col M P rows = Ok es.
Proof.
  induction rows as [|row rows IH]; intros Hin; simpl; [eauto|].
  destruct IH as [es ->]; [intros r Hr; apply Hin; by right|].
  destruct (index_elem_of P row) as [i ->]; [apply Hin; left|].
  destruct (fnonzero (entry M row col)); simpl; eauto.
Qed.

Lemma try_entries_raises attempt col es used P e :
  (∀ c st, attempt c used P = Ok (false, st) → st = (used, P)) →
  (∀ c e', attempt c used P = Raise e' → e' = RecursionError) →
  (∀ x, x ∈ es → ∃ i, index P x.2 = Ok i) →
  try_entries attempt col es used P = Raise e → e = RecursionError.
Proof.
  intros Hfalse Hraise. induction es as [|x es IH]; intros Hidx; simpl; [done|].
  destruct (Hidx x) as [i ->]; [left|]. simpl.
  destruct (attempt i used P) as [[ok [used1 P1]]|e'] eqn:Ha; simpl.
  - destruct ok; [done|]. apply Hfalse in Ha as [= -> ->].
    apply IH. intros y Hy. apply Hidx. by right.
  - intros [= <-]. by eapply Hraise.
Qed.

(** Between two columns of [_pivot] the re-pivoting search raises nothing
    but [RecursionError]. *)
Lemma repivot_used_raises f c M used P e :
  pivot_inv M used P →
  _repivot_used f c M used P = Raise e → e = RecursionError.
Proof.
  intros (Hnd & Hperm & Hb & Hnz). revert c e.
  induction f as [|f IH]; intros c e; [by intros [= <-]|].
  rewrite _repivot_used_S.
  destruct (used_entries_total c M P used) as [es Hes].
  { intros r Hr. by rewrite <- Hperm. }
  rewrite Hes. simpl.
  assert (∀ x, x ∈ sort_reverse es → ∃ i, index P x.2 = Ok i) as Hidx.
  { intros x Hx. rewrite sort_reverse_perm in Hx.
    destruct (used_entries_spec _ _ _ _ _ Hes x Hx) as (_ & _ & _ & i & Hi & _). eauto. }
  destruct (try_entries _ c (sort_reverse es) used P) as [[ok [used1 P1]]|e1] eqn:H1; simpl.
  - destruct ok; [done|].
    apply try_entries_false in H1 as [[= -> ->] _]; [|apply check_attempt_false].
    apply try_entries_raises; [intros c' st'; apply repivot_used_false|apply IH|done].
  - intros [= <-]. eapply try_entries_raises; [| |exact Hidx|exact H1].
    + apply check_attempt_false.
    + done.
Qed.

Lemma pivot_loop_raises fuel M k used P e :
  pivot_inv M used P →
  pivot_loop fuel M (seq (length P) k) used P = Raise e →
  e = ValueError_col_of_0s ∨ e = RecursionError.
Proof.
  revert used P. induction k as [|k IH]; intros used P Hinv; simpl; [done|].
  destruct (_check_unused (length P) M used P) as [ok [used1 P1]] eqn:Hchk.
  destruct ok.
  - destruct (search_post_inv 0 M used P (used1, P1)) as [Hinv1 Hlen1]; [done| |].
    { apply check_unused_post; [apply Hinv|done|done]. }
    simpl in Hlen1. rewrite <- Hlen1. by apply IH.
  - assert ((_check_unused (length P) M used P).1 = false) as Hfst by by rewrite Hchk.
    apply check_unused_false in Hchk as [[= -> ->] _].
    destruct (_repivot_used fuel (length P) M used P) as [[ok [used2 P2]]|e'] eqn:Hr; simpl.
    + destruct ok; [|intros [= <-]; by left].
      destruct (repivot_used_min_fuel _ _ _ _ _ _ Hr) as (g & Hg & Hrg & Hmin).
      destruct (search_post_inv g M used P (used2, P2)) as [Hinv2 Hlen2]; [done| |].
      { by apply repivot_used_post. }
      simpl in Hlen2. rewrite <- Hlen2. by apply IH.
    + intros [= <-]. right. by eapply repivot_used_raises.
Qed.

Lemma pivot_inv_nil M : pivot_inv M [] [].
Proof.
  split; [constructor|]. split; [done|]. split; [|done].
  intros r Hr. by apply elem_of_nil in Hr.
Qed.

(** The loop of [_pivot] over the columns [cs1 ++ cs2] is the loop over
    [cs1] followed by the loop over [cs2]. *)
Lemma pivot_loop_app fuel M cs1 cs2 used P :
  pivot_loop fuel M (cs1 ++ cs2) used P =
    ('(used1, P1) ← pivot_loop fuel M cs1 used P; pivot_loop fuel M cs2 used1 P1).
Proof.
  revert used P. induction cs1 as [|c cs1 IH]; intros used P; [done|].
  cbn [app pivot_loop].
  destruct (_check_unused c M used P) as [[] [used1 P1]]; [apply IH|].
  destruct (_repivot_used fuel c M used1 P1) as [[[] [used2 P2]]|e]; simpl; [apply IH|done..].
Qed.

Lemma used_entries_zero col M P rows :
  (∀ i, fnonzero (entry M i col) = false) → used_entries col M P rows = Ok [].
Proof.
  intros Hzero. induction rows as [|row rows IH]; [done|].
  cbn [used_entries]. by rewrite Hzero, IH.
Qed.

(** In a column of zeros neither the direct assignment nor, with some
    stack left, the re-pivoting finds a row; both leave the lists as they
    were. *)
Lemma zero_column_step f M used P c :
  (∀ i, fnonzero (entry M i c) = false) →
  _check_unused c M used P = (false, (used, P)) ∧
  _repivot_used (S f) c M used P = Ok (false, (used, P)).
Proof.
  intros Hzero. split.
  - destruct (_check_unused c M used P) as [[] st] eqn:Hchk.
    + apply check_unused_true in Hchk as (row & _ & Hin & _).
      apply elem_of_candidates in Hin as (_ & _ & _ & Hnz). by rewrite Hzero in Hnz.
    + by apply check_unused_false in Hchk as [-> _].
  - rewrite _repivot_used_S, used_entries_zero by done. reflexivity.
Qed.

(** On a square matrix whose column [c] is all zero the pivot search
    never returns.  It raises the unpivotable-matrix error, unless it ends
    in [RecursionError]: then no stack is left at all, or the search of
    the columns before [c] has raised it. *)
Lemma pivot_zero_column fuel M n c :
  square n M → c < n → (∀ i, i < n → entry M i c = Fin 0) →
  _pivot fuel M = Raise ValueError_col_of_0s ∨
  (_pivot fuel M = Raise RecursionError ∧
   (fuel = 0 ∨ pivot_loop fuel M (seq 0 c) [] [] = Raise RecursionError)).
Proof.
  intros [Hn _] Hc Hzero. subst n.
  assert (∀ i, fnonzero (entry M i c) = false) as Hz.
  { intros i. destruct (decide (i < length M)) as [Hi|Hi]; [by rewrite Hzero|].
    unfold entry. by rewrite lookup_ge_None_2 by lia. }
  unfold _pivot, pivot_list.
  replace (seq 0 (length M)) with (seq 0 c ++ c :: seq (S c) (length M - S c)).
  2:{ rewrite cons_seq, <- seq_app. f_equal. lia. }
  rewrite pivot_loop_app.
  destruct (pivot_loop fuel M (seq 0 c) [] []) as [[used P]|e] eqn:Hloop.
  - cbn [mbind result_bind pivot_loop].
    destruct fuel as [|f].
    + rewrite (proj1 (zero_column_step 0 M used P c Hz)). cbn. auto.
    + destruct (zero_column_step f M used P c Hz) as [-> ->]. cbn. auto.
  - cbn [mbind result_bind].
    apply (pivot_loop_raises fuel M c [] []) in Hloop as [-> | ->];
      auto using pivot_inv_nil.
Qed.

(** X9: on a square matrix whose column [c] is all zero [LU] never
    returns a decomposition.  It raises the unpivotable-matrix error,
    unless it ends in [RecursionError]: then no stack is left at all, or
    the pivot search of the columns before [c] has raised it. *)
Lemma LU_zero_column fuel M h n c :
  square n (h !!! M) → c < n → (∀ i, i < n → entry (h !!! M) i c = Fin 0) →
  (LU fuel M h).1 = Raise ValueError_col_of_0s ∨
  ((LU fuel M h).1 = Raise RecursionError ∧
   (fuel = 0 ∨ pivot_loop fuel (h !!! M) (seq 0 c) [] [] = Raise RecursionError)).
Proof.
  intros Hsq Hc Hzero. rewrite LU_unfold. cbv zeta.
  destruct (pivot_zero_column fuel _ _ _ Hsq Hc Hzero) as [-> | [-> Hwhy]]; auto.
Qed.

Lemma LU_zero_column_witness :
  (LU recursion_limit 0 [to_float [[3; 0]; [1; 0]]%Z]).1 = Raise ValueError_col_of_0s ∨
  ((LU recursion_limit 0 [to_float [[3; 0]; [1; 0]]%Z]).1 = Raise RecursionError ∧
   (recursion_limit = 0 ∨
    pivot_loop recursion_limit ([to_float [[3; 0]; [1; 0]]%Z] !!! 0) (seq 0 1) [] []
      = Raise RecursionError)).
Proof.
  apply (LU_zero_column recursion_limit 0 [to_float [[3; 0]; [1; 0]]%Z] 2 1).
  - split; [reflexivity|]. repeat constructor.
  - lia.
  - intros i Hi. do 2 (destruct i as [|i]; [reflexivity|]). lia.
Defined.

(** With a zero first column the error is raised at once. *)
Example LU_zero_first_column :
  (LU recursion_limit 0 [to_float [[0; 1]; [0; 1]]%Z]).1 = Raise ValueError_col_of_0s.
Proof. vm_compute. reflexivity. Qed.

(** ** The decomposition as a function of the working matrix *)

Lemma run_subtract_products m i j ks a :
  subtract_products 0 i j ks a [m] = (Ok (products_from m i j ks a), [m]).
Proof.
  unfold subtract_products, products_from. revert a.
  induction ks as [|k ks IH]; intros a; simpl; [done|].
  unfold mbind, St_bind. simpl. apply IH.
Qed.

Lemma run_upper_entry m j i :
  upper_entry 0 j i [m] = (Ok (), [set_entry m i j (upper_value m j i)]).
Proof.
  unfold upper_entry, upper_value, mbind, St_bind, get. simpl.
  case_decide.
  - by rewrite run_subtract_products.
  - assert (i = 0) as -> by lia. done.
Qed.

Lemma run_lower_entry m j i :
  lower_entry 0 j i [m] = (Ok (), [set_entry m i j (lower_value m j i)]).
Proof.
  unfold lower_entry, lower_value, mbind, St_bind, get. simpl.
  by rewrite run_subtract_products.
Qed.

Lemma run_for (body : nat → unit → St unit) (step : matrix → nat → matrix) xs m :
  (∀ x m, body x () [m] = (Ok (), [step m x])) →
  for_ xs body () [m] = (Ok (), [foldl step m xs]).
Proof.
  intros Hb. revert m. induction xs as [|x xs IH]; intros m; simpl; [done|].
  unfold mbind, St_bind. rewrite Hb. apply IH.
Qed.

Lemma run_crout_column n m j :
  crout_column 0 n j [m] = (Ok (), [column_pass n m j]).
Proof.
  unfold crout_column, column_pass, mbind, St_bind.
  rewrite (run_for _ (λ m i, set_entry m i j (upper_value m j i)))
    by (intros; apply run_upper_entry).
  apply (run_for _ (λ m i, set_entry m i j (lower_value m j i))).
  intros. apply run_lower_entry.
Qed.

Lemma run_crout m :
  for_ (range 0 (length m)) (λ j _, crout_column 0 (length m) j) () [m] = (Ok (), [crout m]).
Proof. apply (run_for _ (column_pass (length m))). intros. apply run_crout_column. Qed.

(** What [LU] returns, in terms of [crout]. *)
Lemma LU_value fuel M h :
  (LU fuel M h).1 =
    ('(P, n) ← _pivot fuel (h !!! M);
     pm ← matmul (to_float P) (h !!! M);
     Ok (P, n, _Lower (crout pm), _Upper (crout pm))).
Proof.
  rewrite LU_unfold. cbv zeta.
  destruct (_pivot fuel (h !!! M)) as [[P n]|e]; [|done]. simpl.
  destruct (matmul (to_float P) (h !!! M)) as [pm|e]; [|done]. simpl.
  destruct (local_crout (length pm) ((h ++ [h !!! M]) ++ [h !!! M]) pm)
    as (r & m' & H0 & ->).
  rewrite run_crout in H0. injection H0 as <- <-. simpl.
  by rewrite lookup_total_snoc.
Qed.

(** ** Shapes *)

Lemma range_0 i : range 0 i = seq 0 i.
Proof. unfold range. by rewrite Nat.sub_0_r. Qed.

Lemma square_row n (A : matrix) i :
  square n A → i < n → A !!! i = (λ k, entry A i k) <$> seq 0 n.
Proof.
  intros [Hlen Hrows] Hi.
  destruct (lookup_lt_is_Some_2 A i) as [row Hrow]; [lia|].
  rewrite (list_lookup_total_correct _ _ _ Hrow).
  assert (length row = n) as Hn.
  { rewrite Forall_forall in Hrows. apply Hrows. by eapply list_elem_of_lookup_2. }
  apply list_eq. intros k. rewrite list_lookup_fmap. unfold entry. rewrite Hrow. simpl.
  destruct (decide (k < n)) as [Hk|Hk].
  - rewrite lookup_seq_lt by done. simpl.
    destruct (lookup_lt_is_Some_2 row k) as [x Hx]; [lia|]. by rewrite Hx.
  - rewrite lookup_seq_ge by lia. simpl. apply lookup_ge_None_2. lia.
Qed.

Lemma square_column n (B : matrix) c :
  square n B → c < n → column B c = (λ k, entry B k c) <$> seq 0 n.
Proof.
  intros [Hlen Hrows] Hc. unfold column.
  apply list_eq. intros k. rewrite !list_lookup_fmap. unfold entry.
  destruct (decide (k < n)) as [Hk|Hk].
  - rewrite lookup_seq_lt by done. simpl.
    destruct (lookup_lt_is_Some_2 B k) as [row Hrow]; [lia|]. rewrite Hrow. simpl.
    assert (length row = n) as Hn.
    { rewrite Forall_forall in Hrows. apply Hrows. by eapply list_elem_of_lookup_2. }
    destruct (lookup_lt_is_Some_2 row c) as [x Hx]; [lia|]. rewrite Hx. simpl.
    by rewrite (list_lookup_total_correct _ _ _ Hx).
  - rewrite lookup_seq_ge by lia. rewrite lookup_ge_None_2 by lia. done.
Qed.

Lemma ncols_square n (A : matrix) : square n A → ncols A = n.
Proof.
  intros [Hlen Hrows]. destruct A as [|row A]; [done|]. simpl.
  by apply Forall_cons in Hrows as [? _].
Qed.

Lemma entry_Lower C i k :
  i < length C → k < length C →
  entry (_Lower C) i k =
    if decide (i = k) then Fin 1 else if decide (i < k) then Fin 0 else entry C i k.
Proof.
  intros Hi Hk. unfold _Lower, entry at 1. cbv zeta.
  rewrite list_lookup_fmap, lookup_seq_lt by done. simpl.
  by rewrite list_lookup_fmap, lookup_seq_lt by done.
Qed.

Lemma entry_Upper C k c :
  k < length C → c < length C →
  entry (_Upper C) k c = if decide (c < k) then Fin 0 else entry C k c.
Proof.
  intros Hi Hk. unfold _Upper, entry at 1. cbv zeta.
  rewrite list_lookup_fmap, lookup_seq_lt by done. simpl.
  by rewrite list_lookup_fmap, lookup_seq_lt by done.
Qed.

Lemma square_Lower C : square (length C) (_Lower C).
Proof.
  unfold _Lower. cbv zeta. split; [by rewrite length_fmap, length_seq|].
  apply Forall_fmap, Forall_forall. intros i _. simpl. by rewrite length_fmap, length_seq.
Qed.

Lemma square_Upper C : square (length C) (_Upper C).
Proof.
  unfold _Upper. cbv zeta. split; [by rewrite length_fmap, length_seq|].
  apply Forall_fmap, Forall_forall. intros i _. simpl. by rewrite length_fmap, length_seq.
Qed.

Lemma square_matrix_P P : square (length P) (to_float (_matrix_P P)).
Proof.
  unfold to_float, _matrix_P. split; [by rewrite !length_fmap, length_seq|].
  apply Forall_fmap, Forall_fmap, Forall_forall. intros i _. simpl.
  by rewrite !length_fmap, length_seq.
Qed.

Lemma length_foldl_set_entry (v : matrix → nat → float) j m ks :
  length (foldl (λ m i, set_entry m i j (v m i)) m ks) = length m.
Proof.
  revert m. induction ks as [|k ks IH]; intros m; simpl; [done|].
  rewrite IH. unfold set_entry. by rewrite length_alter.
Qed.

Lemma length_column_pass n m j : length (column_pass n m j) = length m.
Proof.
  unfold column_pass.
  rewrite (length_foldl_set_entry (λ m i, lower_value m j i)).
  by rewrite (length_foldl_set_entry (λ m i, upper_value m j i)).
Qed.

Lemma length_crout m : length (crout m) = length m.
Proof.
  unfold crout. generalize (length m) at 1 as n. generalize (range 0 (length m)) as js.
  intros js n. revert m. induction js as [|j js IH]; intros m; simpl; [done|].
  by rewrite IH, length_column_pass.
Qed.

Lemma entry_matrix_P P i k :
  i < length P → k < length P →
  entry (to_float (_matrix_P P)) i k =
    of_int (if decide (k = P !!! i) then 1 else 0).
Proof.
  intros Hi Hk. unfold entry, to_float, _matrix_P.
  rewrite !list_lookup_fmap, lookup_seq_lt by done. simpl.
  by rewrite !list_lookup_fmap, lookup_seq_lt by done.
Qed.

Lemma finite_scenario : finite_matrix 3 scenario.
Proof.
  intros r c Hr Hc. do 3 (destruct r as [|r]; [do 3 (destruct c as [|c]; [done|]); lia|]). lia.
Qed.

(** ** The callers of [LU] *)

Lemma simul_solve_cached fuel M b P n L U h :
  ∃ h', simul_solve fuel M b (Some P) n (Some L) (Some U) h = (fb_sub L U P b, h ++ h').
Proof.
  unfold simul_solve, mbind, St_bind, lift, load, alloc, mret, St_ret.
  destruct (as_column b) as [b'|e] eqn:Hb; simpl.
  - rewrite (fb_sub_as_column _ _ _ _ _ Hb). eauto.
  - unfold fb_sub. rewrite Hb. exists []. by rewrite app_nil_r.
Qed.

Lemma simul_solve_value fuel M b b1 h :
  as_column b = Ok b1 →
  (simul_solve fuel M b None None None None h).1 =
    ('(P, n, L, U) ← (LU fuel M h).1; fb_sub L U P b).
Proof.
  intros Hb. unfold simul_solve, mbind, St_bind, lift, load, alloc, mret, St_ret.
  rewrite Hb.
  rewrite (surjective_pairing (LU fuel (length h) (h ++ [h !!! M]))).
  rewrite (LU_result fuel (length h)), lookup_total_snoc, <- (LU_result fuel M h).
  destruct (LU fuel M h).1 as [[[[P n] L] U]|e]; simpl; [|done].
  by rewrite (fb_sub_as_column _ _ _ _ _ Hb).
Qed.

Lemma simul_solve_store fuel M b P n L U h :
  ∃ h', (simul_solve fuel M b P n L U h).2 = h ++ h'.
Proof.
  unfold simul_solve, mbind, St_bind, lift, load, alloc, mret, St_ret, raise.
  destruct (as_column b) as [b'|e]; [|exists []; by rewrite app_nil_r].
  destruct P as [P|].
  - destruct L as [L|], U as [U|]; simpl; eauto.
  - destruct (LU_store fuel (length h) (h ++ [h !!! M])) as [h' Hh'].
    destruct (LU fuel (length h) (h ++ [h !!! M])) as [[[[[P' n'] L'] U']|e] h2];
      simpl in Hh' |- *; subst h2; rewrite <- app_assoc; eauto.
Qed.

Lemma run_invert_column fuel A P n L U a i acc h :
  h !! A = Some a →
  ∃ h', invert_column fuel A P n L U i acc h =
    (x ← fb_sub L U P (unit_vector (length a) i);
     x ← reshape_flat x (length a);
     Ok (acc ++ [x]), h ++ h').
Proof.
  intros Ha. unfold invert_column, mbind at 1 2 3, St_bind, load, lift.
  rewrite (list_lookup_total_correct _ _ _ Ha).
  destruct (simul_solve_cached fuel A (unit_vector (length a) i) P (Some n) L U h)
    as [h1 ->].
  destruct (fb_sub L U P (unit_vector (length a) i)) as [x|e]; simpl; [|eauto].
  destruct (reshape_flat x (length a)) as [x'|e]; simpl; eauto.
Qed.

Lemma invert_loop fuel A P n L U a ks acc h :
  h !! A = Some a →
  ∃ h', for_ ks (invert_column fuel A P n L U) acc h =
    (inverse_columns L U P (length a) ks acc, h ++ h').
Proof.
  revert acc h. induction ks as [|i ks IH]; intros acc h Ha; simpl.
  { exists []. by rewrite app_nil_r. }
  unfold mbind at 1, St_bind at 1.
  destruct (run_invert_column fuel A P n L U a i acc h Ha) as [h1 ->].
  destruct (fb_sub L U P (unit_vector (length a) i)) as [x|e]; simpl; [|eauto].
  destruct (reshape_flat x (length a)) as [x'|e]; simpl; [|eauto].
  destruct (IH (acc ++ [x']) (h ++ h1)) as [h2 ->]; [by apply lookup_app_l_Some|].
  rewrite <- app_assoc. eauto.
Qed.

(** What [invert] returns, and that it writes to no array alive before
    the call. *)
Lemma invert_run fuel A a h :
  h !! A = Some a →
  ∃ h', invert fuel A h =
    ('(P, n, L, U) ← (LU fuel A h).1;
     cols ← inverse_columns L U P (length a) (range 0 (length a)) [];
     Ok (transpose cols), h ++ h').
Proof.
  intros Ha. unfold invert.
  unfold mbind at 1 2 3, St_bind at 1 2 3.
  destruct (LU_store fuel A h) as [h1 Hh1].
  destruct (LU fuel A h) as [[[[[P n] L] U]|e] h2]; simpl in Hh1 |- *; subst h2; [|eauto].
  assert ((h ++ h1) !! A = Some a) as Ha1 by by apply lookup_app_l_Some.
  rewrite (list_lookup_total_correct _ _ _ Ha1).
  destruct (invert_loop fuel A P n L U a (range 0 (length a)) [] (h ++ h1) Ha1) as [h2 ->].
  rewrite <- app_assoc.
  destruct (inverse_columns _ _ _ _ _ _) as [cols|e]; simpl; eauto.
Qed.

(** ** The stack depth *)

Lemma pivot_loop_stable f f' M cols used P r :
  pivot_loop f M cols used P = Ok r → f ≤ f' → pivot_loop f' M cols used P = Ok r.
Proof.
  intros H Hle. revert used P H.
  induction cols as [|col cols IH]; intros used P; simpl; [done|].
  destruct (_check_unused col M used P) as [[] [used1 P1]]; [apply IH|].
  intros H. apply bind_Ok in H as ([ok [used2 P2]] & Hr & H).
  rewrite (repivot_used_stable _ f' _ _ _ _ _ Hr Hle). simpl.
  destruct ok; [by apply IH|done].
Qed.

(** X1: the stack depth decides only whether the pivot search ends in
    [RecursionError]: a result that [LU] returns with one depth of stack
    is returned with every larger one. *)
Theorem LU_depth_independent (fuel fuel' : nat) (M : loc) (h : heap)
    (r : list (list Z) * Z * matrix * matrix) :
  (LU fuel M h).1 = Ok r → fuel ≤ fuel' → (LU fuel' M h).1 = Ok r.
Proof.
  rewrite !LU_value. intros H Hle.
  apply bind_Ok in H as ([P n] & Hp & H).
  unfold _pivot in Hp |- *. apply bind_Ok in Hp as (Pl & HPl & Hp).
  unfold pivot_list in HPl |- *. apply bind_Ok in HPl as ([used Pl'] & Hloop & [= <-]).
  rewrite (pivot_loop_stable _ fuel' _ _ _ _ _ Hloop Hle). simpl.
  by rewrite Hp.
Qed.

Lemma LU_depth_independent_witness :
  (LU recursion_limit 0 [zero_pivot_example]).1 =
    Ok (zero_pivot_P, (-1)%Z, zero_pivot_L, zero_pivot_U).
Proof.
  apply (LU_depth_independent 2 recursion_limit 0 [zero_pivot_example]).
  - vm_compute. reflexivity.
  - unfold recursion_limit. lia.
Defined.

(** ** The shape of the factors *)

Lemma length_matmul (A B R : matrix) : matmul A B = Ok R → length R = length A.
Proof.
  unfold matmul. case_decide; [|done]. intros [= <-]. by rewrite length_fmap.
Qed.

(** X2: also when a pivot is zero and the factors hold infinities or
    nans, what [LU] returns on an [n×n] matrix has the shape the docstring
    gives: [n] is positive, the sign is [+1] or [-1], [P] is the
    permutation matrix of a permutation of [0..n-1] that puts a non-zero
    entry of [M] on every diagonal position, [L] and [U] are [n×n], [L]
    has ones on the diagonal and zeros above it, and [U] has zeros below
    the diagonal. *)
Theorem LU_shape (fuel : nat) (M : loc) (h : heap) (n : nat)
    (P : list (list Z)) (s : Z) (L U : matrix) :
  square n (h !!! M) →
  (LU fuel M h).1 = Ok (P, s, L, U) →
  0 < n ∧ (s = 1 ∨ s = -1)%Z ∧
  (∃ Pl, Pl ≡ₚ seq 0 n ∧ P = _matrix_P Pl ∧
         ∀ c, c < n → fnonzero (entry (h !!! M) (Pl !!! c) c) = true) ∧
  square n L ∧ square n U ∧
  ∀ i j, i < n → j < n →
    (i = j → entry L i j = Fin 1) ∧
    (i < j → entry L i j = Fin 0) ∧
    (j < i → entry U i j = Fin 0).
Proof.
  intros Hsq HLU. rewrite LU_value in HLU.
  apply bind_Ok in HLU as ([P' s'] & Hp & HLU).
  apply bind_Ok in HLU as (PM & HPM & [= -> -> <- <-]).
  unfold _pivot in Hp. apply bind_Ok in Hp as (Pl & HPl & Hp).
  apply bind_Ok in Hp as (s'' & Hdet & [= <- <-]).
  apply pivot_list_spec in HPl as [Hperm Hnz]. rewrite (proj1 Hsq) in Hperm.
  assert (length Pl = n) as HlenP by (by rewrite Hperm, length_seq).
  assert (Pl ≠ []) as Hne by (by destruct Pl; [discriminate Hdet|]).
  assert (0 < n) as Hn by (destruct Pl; [done|simpl in HlenP; lia]).
  rewrite det_P_prod_adj in Hdet by (done || by rewrite HlenP).
  injection Hdet as <-.
  assert (length (crout PM) = n) as HlenC.
  { rewrite length_crout, (length_matmul _ _ _ HPM).
    unfold to_float, _matrix_P. by rewrite !length_map, length_seq. }
  split_and!.
  - done.
  - apply prod_adj_cases.
  - exists Pl. split_and!; [done..|].
    intros c Hc. apply (Hnz c). apply list_lookup_lookup_total_lt. lia.
  - rewrite <- HlenC. apply square_Lower.
  - rewrite <- HlenC. apply square_Upper.
  - intros i j Hi Hj. rewrite <- HlenC in Hi, Hj. split_and!.
    + intros <-. rewrite entry_Lower by done. by rewrite decide_True.
    + intros Hlt. rewrite entry_Lower by done.
      rewrite decide_False by lia. by rewrite decide_True.
    + intros Hlt. rewrite entry_Upper by done. by rewrite decide_True.
Qed.

Lemma LU_shape_witness :
  0 < 3 ∧ ((-1) = 1 ∨ (-1) = -1)%Z ∧
  (∃ Pl, Pl ≡ₚ seq 0 3 ∧ zero_pivot_P = _matrix_P Pl ∧
         ∀ c, c < 3 → fnonzero (entry ([zero_pivot_example] !!! 0) (Pl !!! c) c) = true) ∧
  square 3 zero_pivot_L ∧ square 3 zero_pivot_U ∧
  ∀ i j, i < 3 → j < 3 →
    (i = j → entry zero_pivot_L i j = Fin 1) ∧
    (i < j → entry zero_pivot_L i j = Fin 0) ∧
    (j < i → entry zero_pivot_U i j = Fin 0).
Proof.
  apply (LU_shape recursion_limit 0 [zero_pivot_example] 3).
  - split; [reflexivity|]. repeat constructor.
  - vm_compute. reflexivity.
Defined.

(** ** The columns of the inverse *)

Lemma inverse_columns_spec L U P n ks acc :
  (∀ i, i ∈ ks → ∃ x, fb_sub L U P (unit_vector n i) = Ok x ∧ length x = n) →
  ∃ cols, inverse_columns L U P n ks acc = Ok (acc ++ cols) ∧
    Forall2 (λ i x, fb_sub L U P (unit_vector n i) = Ok x) ks cols.
Proof.
  revert acc. induction ks as [|i ks IH]; intros acc Hks; simpl.
  { exists []. by rewrite app_nil_r. }
  destruct (Hks i) as (x & Hx & Hlen); [left|]. rewrite Hx. simpl.
  unfold reshape_flat. rewrite decide_True by done. simpl.
  destruct (IH (acc ++ [x])) as (cols & -> & Hcols).
  { intros i' Hi'. apply Hks. by right. }
  exists (x :: cols). rewrite <- app_assoc. split; [done|]. by constructor.
Qed.

(** ** Failures of the callers of [LU] *)

(** X5: on a square matrix whose column [c] is all zero neither
    [simul_solve] (without a decomposition, and with a right-hand side it
    accepts) nor [invert] returns.  Each raises the unpivotable-matrix
    error, unless it ends in [RecursionError]: then no stack is left at
    all, or the pivot search of the columns before [c] has raised it. *)
Theorem zero_column_not_solved (fuel : nat) (M : loc) (h : heap) (m : matrix) (n c : nat)
    (b b1 : ndarray) :
  h !! M = Some m → square n m → c < n → (∀ i, i < n → entry m i c = Fin 0) →
  as_column b = Ok b1 →
  ((simul_solve fuel M b None None None None h).1 = Raise ValueError_col_of_0s ∨
   ((simul_solve fuel M b None None None None h).1 = Raise RecursionError ∧
    (fuel = 0 ∨ pivot_loop fuel m (seq 0 c) [] [] = Raise RecursionError))) ∧
  ((invert fuel M h).1 = Raise ValueError_col_of_0s ∨
   ((invert fuel M h).1 = Raise RecursionError ∧
    (fuel = 0 ∨ pivot_loop fuel m (seq 0 c) [] [] = Raise RecursionError))).
Proof.
  intros Hm Hsq Hc Hzero Hb.
  pose proof (list_lookup_total_correct _ _ _ Hm) as Hm'.
  destruct (invert_run fuel M m h Hm) as [h' ->].
  rewrite (simul_solve_value _ _ _ _ _ Hb), LU_value, Hm'.
  destruct (pivot_zero_column fuel m n c Hsq Hc Hzero) as [-> | [-> Hwhy]]; simpl; auto.
Qed.

Lemma zero_column_not_solved_witness :
  ((simul_solve recursion_limit 0 (vector [1; 2]%Z) None None None None
      [to_float [[3; 0]; [1; 0]]%Z]).1 = Raise ValueError_col_of_0s ∨
   ((simul_solve recursion_limit 0 (vector [1; 2]%Z) None None None None
       [to_float [[3; 0]; [1; 0]]%Z]).1 = Raise RecursionError ∧
    (recursion_limit = 0 ∨
     pivot_loop recursion_limit (to_float [[3; 0]; [1; 0]]%Z) (seq 0 1) [] []
       = Raise RecursionError))) ∧
  ((invert recursion_limit 0 [to_float [[3; 0]; [1; 0]]%Z]).1 = Raise ValueError_col_of_0s ∨
   ((invert recursion_limit 0 [to_float [[3; 0]; [1; 0]]%Z]).1 = Raise RecursionError ∧
    (recursion_limit = 0 ∨
     pivot_loop recursion_limit (to_float [[3; 0]; [1; 0]]%Z) (seq 0 1) [] []
       = Raise RecursionError))).
Proof.
  apply (zero_column_not_solved recursion_limit 0 [to_float [[3; 0]; [1; 0]]%Z]
           (to_float [[3; 0]; [1; 0]]%Z) 2 1 (vector [1; 2]%Z)
           {| shape := [2; 1]; data := map of_int [1; 2]%Z |}).
  - reflexivity.
  - split; [reflexivity|]. repeat constructor.
  - lia.
  - intros i Hi. do 2 (destruct i as [|i]; [reflexivity|]). lia.
  - reflexivity.
Defined.

(** X6: a right-hand side given as a [1×n] row vector with [n ≠ 1] is
    not turned into a column: [b.reshape(len(b), 1)] asks for the shape
    [(1, 1)], so [fb_sub] raises [ValueError], and [simul_solve] raises it
    before it copies [M] or runs [LU]. *)
Theorem row_vector_rejected (b : ndarray) (n : nat) :
  shape b = [1; n] → length (data b) = n → n ≠ 1 →
  (∀ L U P, fb_sub L U P b = Raise ValueError_reshape) ∧
  (∀ fuel M P s L U h,
     simul_solve fuel M b P s L U h = (Raise ValueError_reshape, h)).
Proof.
  intros Hshape Hlen Hn.
  assert (as_column b = Raise ValueError_reshape) as Hb.
  { unfold as_column, reshape_column. rewrite Hshape.
    destruct n as [|[|n]]; [|done|]; by rewrite decide_False by lia. }
  split.
  - intros L U P. unfold fb_sub. by rewrite Hb.
  - intros fuel M P s L U h. unfold simul_solve, mbind, St_bind, lift. by rewrite Hb.
Qed.

Lemma row_vector_rejected_witness :
  (∀ L U P, fb_sub L U P {| shape := [1; 3]; data := map of_int [1; 2; 3]%Z |}
            = Raise ValueError_reshape) ∧
  (∀ fuel M P s L U h,
     simul_solve fuel M {| shape := [1; 3]; data := map of_int [1; 2; 3]%Z |} P s L U h
     = (Raise ValueError_reshape, h)).
Proof.
  apply (row_vector_rejected {| shape := [1; 3]; data := map of_int [1; 2; 3]%Z |} 3).
  - reflexivity.
  - reflexivity.
  - lia.
Defined.

(** X7: [simul_solve] and [invert] leave the matrix they are given,
    and every other matrix of the store, as it was, whether they return or
    raise: they write to copies only, the float copy made by [astype] and
    the copies [LU] makes.  (The right-hand side and a cached
    decomposition are values here; nothing is stated about them.) *)
Theorem solvers_preserve_store (fuel : nat) (M : loc) (h : heap) (m : matrix) (b : ndarray)
    (P : option (list (list Z))) (s : option Z) (L U : option matrix) :
  h !! M = Some m →
  ((simul_solve fuel M b P s L U h).2 !! M = Some m ∧
   ∃ h', (simul_solve fuel M b P s L U h).2 = h ++ h') ∧
  ((invert fuel M h).2 !! M = Some m ∧
   ∃ h', (invert fuel M h).2 = h ++ h').
Proof.
  intros Hm.
  destruct (simul_solve_store fuel M b P s L U h) as [h1 H1].
  destruct (invert_run fuel M m h Hm) as [h2 H2].
  rewrite H1, H2. cbn [snd]. split_and!; eauto using lookup_app_l_Some.
Qed.

Lemma solvers_preserve_store_witness :
  ((simul_solve recursion_limit 0 (vector [1; 2; 3]%Z) None None None None
      [scenario]).2 !! 0 = Some scenario ∧
   ∃ h', (simul_solve recursion_limit 0 (vector [1; 2; 3]%Z) None None None None
            [scenario]).2 = [scenario] ++ h') ∧
  ((invert recursion_limit 0 [scenario]).2 !! 0 = Some scenario ∧
   ∃ h', (invert recursion_limit 0 [scenario]).2 = [scenario] ++ h').
Proof.
  apply (solvers_preserve_store recursion_limit 0 [scenario] scenario). reflexivity.
Defined.

(** ** Products with zeros and ones

    The entries of a permutation matrix are 0 and 1: the products and the
    sums of [P * M] are exact on finite values. *)

Lemma round64_proper (a b : Q) : (a == b)%Q → round64 a = round64 b.
Proof. intros H. unfold round64. by rewrite (Qred_complete a b H). Qed.

Lemma fmul_1_l x : finite x → fmul (Fin 1) x = x.
Proof.
  destruct x as [q| | |]; [|done..]. intros Hq. simpl.
  rewrite (round64_proper (1 * q) q) by ring. exact Hq.
Qed.

Lemma fmul_0_l x : finite x → fmul (Fin 0) x = Fin 0.
Proof.
  destruct x as [q| | |]; [|done..]. intros _.
  change (round64 (0 * q) = round64 0). apply round64_proper. ring.
Qed.

Lemma fadd_0_l x : finite x → fadd (Fin 0) x = x.
Proof.
  destruct x as [q| | |]; [|done..]. intros Hq. simpl.
  rewrite (round64_proper (0 + q) q) by ring. exact Hq.
Qed.

Lemma fadd_0_r x : finite x → fadd x (Fin 0) = x.
Proof.
  destruct x as [q| | |]; [|done..]. intros Hq. simpl.
  rewrite (round64_proper (q + 0) q) by ring. exact Hq.
Qed.

Lemma of_int_0 : of_int 0 = Fin 0.
Proof. reflexivity. Qed.

Lemma of_int_1 : of_int 1 = Fin 1.
Proof. vm_compute. reflexivity. Qed.

Lemma zip_fmap {A B C} (f : A → B) (g : A → C) (l : list A) :
  zip (f <$> l) (g <$> l) = (λ k, (f k, g k)) <$> l.
Proof. induction l as [|k l IH]; [done|]. rewrite !fmap_cons. simpl. by rewrite IH. Qed.

(** The sum of the products of a row of zeros with finite values leaves a
    finite accumulator as it is. *)
Lemma dot_zeros (u g : nat → float) ks acc :
  finite acc → (∀ k, k ∈ ks → u k = Fin 0 ∧ finite (g k)) →
  foldl (λ acc xy, fadd acc (fmul xy.1 xy.2)) acc ((λ k, (u k, g k)) <$> ks) = acc.
Proof.
  intros Hacc. induction ks as [|k ks IH]; intros Hks; [done|].
  destruct (Hks k) as [Hu Hg]; [left|].
  rewrite fmap_cons. cbn [foldl fst snd]. rewrite Hu, fmul_0_l, fadd_0_r by done.
  apply IH. intros k' Hk'. apply Hks. by right.
Qed.

(** The product of a unit row with a column of finite values is the entry
    at the position of the one. *)
Lemma dot_unit (p n : nat) (g : nat → float) :
  p < n → (∀ k, k < n → finite (g k)) →
  dot ((λ k, of_int (if decide (k = p) then 1 else 0)) <$> seq 0 n) (g <$> seq 0 n) = g p.
Proof.
  intros Hp Hg. unfold dot. rewrite zip_fmap.
  replace (seq 0 n) with (seq 0 p ++ p :: seq (S p) (n - S p)).
  2:{ rewrite cons_seq, <- seq_app. f_equal. lia. }
  rewrite fmap_app, fmap_cons, foldl_app. cbn [foldl fst snd].
  rewrite (dot_zeros _ _ (seq 0 p) (Fin 0)).
  2:{ reflexivity. }
  2:{ intros k Hk%elem_of_seq. rewrite decide_False by lia.
      split; [apply of_int_0|apply Hg; lia]. }
  rewrite decide_True, of_int_1, fmul_1_l, fadd_0_l by (done || apply Hg; lia).
  apply dot_zeros; [apply Hg; lia|].
  intros k Hk%elem_of_seq. rewrite decide_False by lia.
  split; [apply of_int_0|apply Hg; lia].
Qed.

(** The entries of the product of two square matrices. *)
Lemma matmul_entries n (A B : matrix) :
  square n A → square n B →
  ∃ R, matmul A B = Ok R ∧ square n R ∧
    ∀ i c, i < n → c < n →
      entry R i c = dot ((λ k, entry A i k) <$> seq 0 n) ((λ k, entry B k c) <$> seq 0 n).
Proof.
  intros HA HB. unfold matmul.
  rewrite (ncols_square n A HA), (ncols_square n B HB), decide_True
    by (symmetry; apply HB).
  eexists. split; [done|]. split.
  - split; [rewrite length_fmap; apply HA|].
    apply Forall_fmap, Forall_forall. intros row _. simpl.
    by rewrite length_fmap, length_seq.
  - intros i c Hi Hc. unfold entry at 1. rewrite list_lookup_fmap.
    destruct (lookup_lt_is_Some_2 A i) as [row Hrow]; [rewrite (proj1 HA); lia|].
    rewrite Hrow. simpl. rewrite list_lookup_fmap, lookup_seq_lt by done. simpl.
    rewrite <- (square_row n A i HA Hi), (list_lookup_total_correct _ _ _ Hrow).
    by rewrite (square_column n B c HB Hc).
Qed.

(** ** The permutation matrix in a product *)

(** X8: for a permutation [Pl] of [0..n-1] and a finite [n×n] matrix
    [M], the product [_matrix_P(Pl) * M] is the finite [n×n] matrix whose
    row [i] is the row [Pl[i]] of [M]. *)
Theorem matrix_P_permutes_rows (n : nat) (Pl : list nat) (M : matrix) :
  Pl ≡ₚ seq 0 n → square n M → finite_matrix n M →
  ∃ PM, matmul (to_float (_matrix_P Pl)) M = Ok PM ∧ square n PM ∧
    ∀ i c, i < n → c < n →
      finite (entry PM i c) ∧ (val (entry PM i c) == val (entry M (Pl !!! i) c))%Q.
Proof.
  intros Hperm Hsq Hfin.
  assert (length Pl = n) as HlenP by (by rewrite Hperm, length_seq).
  destruct (matmul_entries n (to_float (_matrix_P Pl)) M) as (PM & HPM & HsqPM & Hent).
  { rewrite <- HlenP. apply square_matrix_P. }
  { done. }
  exists PM. split_and!; [done..|].
  intros i c Hi Hc.
  assert (Pl !!! i < n) as Hp.
  { assert (Pl !!! i ∈ seq 0 n) as Hin.
    { rewrite <- Hperm. apply list_elem_of_lookup_total_2. lia. }
    apply elem_of_seq in Hin. lia. }
  assert (entry PM i c = entry M (Pl !!! i) c) as ->.
  { rewrite Hent by done.
    rewrite (list_fmap_ext (λ k, entry (to_float (_matrix_P Pl)) i k)
               (λ k, of_int (if decide (k = Pl !!! i) then 1 else 0)) (seq 0 n)).
    2:{ intros j k Hk. apply lookup_seq in Hk as [-> Hk].
        apply entry_matrix_P; lia. }
    apply (dot_unit (Pl !!! i) n (λ k, entry M k c)); [done|].
    intros k Hk. by apply Hfin. }
  split; [by apply Hfin|reflexivity].
Qed.

Lemma matrix_P_permutes_rows_witness :
  ∃ PM, matmul (to_float (_matrix_P [2; 0; 1])) scenario = Ok PM ∧ square 3 PM ∧
    ∀ i c, i < 3 → c < 3 →
      finite (entry PM i c) ∧
      (val (entry PM i c) == val (entry scenario ([2; 0; 1]%nat !!! i) c))%Q.
Proof.
  apply (matrix_P_permutes_rows 3 [2; 0; 1] scenario).
  - simpl. apply (Permutation_cons_app [0; 1] [] 2). reflexivity.
  - exact square_scenario.
  - exact finite_scenario.
Defined.

(** ** The re-pivoting step of [_pivot] *)

(** X12: between two columns of [_pivot] — [P] holds distinct rows,
    [used] holds the same rows, and every [M[P[c], c]] is non-zero — and
    after [_check_unused] has failed for the next column, [_repivot_used]
    either returns [True], with one new row appended to [used], [P] one
    entry longer and the same three facts true of the new lists, or
    returns [False] with both lists as they were, or exhausts the stack:
    [P.index] never fails. *)
Theorem repivot_used_contract (f : nat) (M : matrix) (used P : list nat) :
  pivot_inv M used P →
  (_check_unused (length P) M used P).1 = false →
  (∀ st, _repivot_used f (length P) M used P = Ok (true, st) →
     pivot_inv M st.1 st.2 ∧ length st.2 = S (length P) ∧
     ∃ u, (u ∉ used) ∧ st.1 = used ++ [u]) ∧
  (∀ st, _repivot_used f (length P) M used P = Ok (false, st) → st = (used, P)) ∧
  (∀ e, _repivot_used f (length P) M used P = Raise e → e = RecursionError).
Proof.
  intros Hinv Hchk. split_and!.
  - intros st Hst.
    destruct (repivot_used_min_fuel _ _ _ _ _ _ Hst) as (g & Hg & Hrg & Hmin).
    pose proof (repivot_used_post g M used P (length P) st Hinv (le_n _) Hchk Hmin Hrg)
      as Hpost.
    destruct (search_post_inv g M used P st Hinv Hpost) as [Hinv' Hlen].
    split_and!; [done..|].
    destruct Hpost as (u & Hu & _ & Hused & _). eauto.
  - intros st. apply repivot_used_false.
  - intros e. by apply repivot_used_raises.
Qed.

Lemma repivot_used_contract_witness :
  (∀ st, _repivot_used 1 (length [1; 2]) zero_pivot_example [1; 2] [1; 2] = Ok (true, st) →
     pivot_inv zero_pivot_example st.1 st.2 ∧ length st.2 = S (length [1; 2]) ∧
     ∃ u, (u ∉ [1; 2]) ∧ st.1 = [1; 2] ++ [u]) ∧
  (∀ st, _repivot_used 1 (length [1; 2]) zero_pivot_example [1; 2] [1; 2] = Ok (false, st) →
     st = ([1; 2], [1; 2])) ∧
  (∀ e, _repivot_used 1 (length [1; 2]) zero_pivot_example [1; 2] [1; 2] = Raise e →
     e = RecursionError).
Proof.
  apply (repivot_used_contract 1 zero_pivot_example [1; 2] [1; 2]).
  - split_and!.
    + apply (bool_decide_unpack _). vm_compute. exact I.
    + reflexivity.
    + intros r Hr.
      repeat (apply elem_of_cons in Hr as [->|Hr]; [vm_compute; lia|]).
      by apply elem_of_nil in Hr.
    + intros c r Hr. do 2 (destruct c as [|c]; [injection Hr as <-; reflexivity|]).
      discriminate Hr.
  - reflexivity.
Defined.
(** ** The exceptions of [LU] and of its callers *)

Lemma matmul_matrix_P_Ok n Pl (m : matrix) :
  length Pl = n → 0 < n → length m = n → ∃ pm, matmul (to_float (_matrix_P Pl)) m = Ok pm.
Proof.
  intros HP Hn Hm. unfold matmul.
  assert (ncols (to_float (_matrix_P Pl)) = length m) as ->; [|rewrite decide_True; eauto].
  unfold to_float, _matrix_P. rewrite HP, Hm.
  destruct n as [|n]; [lia|]. rewrite <- cons_seq. simpl.
  by rewrite !length_map, length_seq.
Qed.

(** On a square matrix with at least one row [LU] raises nothing but the
    two errors of the pivot search. *)
Lemma LU_raises fuel M h n e :
  square n (h !!! M) → 0 < n → (LU fuel M h).1 = Raise e →
  e = ValueError_col_of_0s ∨ e = RecursionError.
Proof.
  intros Hsq Hn. rewrite LU_value. unfold _pivot, pivot_list.
  destruct (pivot_loop fuel (h !!! M) (seq 0 (length (h !!! M))) [] []) as [[used Pl]|e']
    eqn:Hloop; simpl.
  - destruct (pivot_loop_inv fuel (h !!! M) (length (h !!! M)) [] [] (used, Pl))
      as [_ Hlen]; [apply pivot_inv_nil|done|].
    simpl in Hlen. rewrite (proj1 Hsq) in Hlen.
    destruct Pl as [|p Pl]; [simpl in Hlen; lia|]. cbn [_det_P mbind result_bind].
    destruct (matmul_matrix_P_Ok n (p :: Pl) (h !!! M) Hlen Hn (proj1 Hsq)) as [pm ->].
    done.
  - intros [= <-].
    by apply (pivot_loop_raises fuel (h !!! M) (length (h !!! M)) [] []);
      [apply pivot_inv_nil|].
Qed.

(** X13: on the empty matrix [LU] raises [IndexError] (the sign is
    read off the first entry of an empty list); on a square matrix with at
    least one row it returns or raises the unpivotable-matrix error or
    [RecursionError], and nothing else. *)
Theorem LU_exceptions (fuel : nat) (M : loc) (h : heap) (n : nat) :
  square n (h !!! M) →
  (n = 0 → (LU fuel M h).1 = Raise IndexError) ∧
  (0 < n → ∀ e, (LU fuel M h).1 = Raise e →
     e = ValueError_col_of_0s ∨ e = RecursionError).
Proof.
  intros Hsq. split.
  - intros ->. rewrite LU_value.
    destruct Hsq as [Hlen _]. apply nil_length_inv in Hlen. by rewrite Hlen.
  - intros Hn e. by apply (LU_raises fuel M h n).
Qed.

Lemma LU_exceptions_witness :
  (2 = 0 → (LU recursion_limit 0 [to_float [[0; 1]; [0; 1]]%Z]).1 = Raise IndexError) ∧
  (0 < 2 → ∀ e, (LU recursion_limit 0 [to_float [[0; 1]; [0; 1]]%Z]).1 = Raise e →
     e = ValueError_col_of_0s ∨ e = RecursionError).
Proof.
  apply (LU_exceptions recursion_limit 0 [to_float [[0; 1]; [0; 1]]%Z] 2).
  split; [reflexivity|]. repeat constructor.
Defined.

Lemma length_back_loop U y N x ks :
  length (foldl (back_step U y N) x ks) = length x.
Proof.
  revert x. induction ks as [|k ks IH]; intros x; [done|].
  cbn [foldl]. rewrite IH. unfold back_step. by rewrite length_insert.
Qed.

(** On a right-hand side of the length of [P], [fb_sub] returns a vector
    of that length, whatever the values. *)
Lemma fb_sub_total L U (P : list (list Z)) b n :
  (shape b = [n] ∨ shape b = [n; 1]) → length (data b) = n →
  length P = n → ncols P = n → 0 < n →
  ∃ x, fb_sub L U P b = Ok x ∧ length x = n.
Proof.
  intros Hshape Hlen HP Hcols Hn. unfold fb_sub.
  assert (∃ b1, as_column b = Ok b1 ∧ shape b1 = [n; 1]) as (b1 & -> & Hsh1).
  { unfold as_column, reshape_column. destruct Hshape as [Hs | Hs]; rewrite Hs; simpl.
    - rewrite decide_True by done. eauto.
    - eauto. }
  simpl. unfold matvec. rewrite Hsh1, decide_True by done. simpl.
  destruct ((λ row, dot (map of_int row) (data b1)) <$> P) as [|b0 b'] eqn:Hb.
  { apply (f_equal length) in Hb. rewrite length_fmap in Hb. simpl in Hb. lia. }
  eexists. split; [done|].
  rewrite length_back_loop, length_insert, length_replicate.
  apply (f_equal length) in Hb. rewrite length_fmap in Hb. lia.
Qed.

Lemma LU_permutation fuel M h n P s L U :
  square n (h !!! M) → (LU fuel M h).1 = Ok (P, s, L, U) →
  ∃ Pl, P = _matrix_P Pl ∧ Pl ≡ₚ seq 0 n.
Proof.
  intros Hsq HLU. rewrite LU_value in HLU.
  apply bind_Ok in HLU as ([P' s'] & Hp & HLU).
  apply bind_Ok in HLU as (PM & HPM & [= -> -> <- <-]).
  unfold _pivot in Hp. apply bind_Ok in Hp as (Pl & HPl & Hp).
  apply bind_Ok in Hp as (s'' & Hdet & [= <- <-]).
  apply pivot_list_spec in HPl as [Hperm _]. rewrite (proj1 Hsq) in Hperm. eauto.
Qed.

Lemma shape_matrix_P Pl n :
  length Pl = n → 0 < n → length (_matrix_P Pl) = n ∧ ncols (_matrix_P Pl) = n.
Proof.
  intros HP Hn. unfold _matrix_P. rewrite HP, length_fmap, length_seq. split; [done|].
  destruct n as [|n]; [lia|]. rewrite <- cons_seq. simpl. by rewrite length_fmap, length_seq.
Qed.

Lemma square_transpose n (cols : matrix) :
  0 < n → length cols = n → Forall (λ row, length row = n) cols →
  square n (transpose cols).
Proof.
  intros Hn Hlen Hrows. unfold transpose.
  assert (ncols cols = n) as ->.
  { destruct cols as [|row cols]; [simpl in Hlen; lia|]. simpl.
    by apply Forall_cons in Hrows as [? _]. }
  split; [by rewrite length_fmap, length_seq|].
  apply Forall_fmap, Forall_forall. intros k _. simpl.
  unfold column. by rewrite length_fmap.
Qed.

(** X14: on a square matrix with at least one row, also when a pivot
    is zero and the factors hold infinities or nans, [simul_solve] (for a
    right-hand side given as a vector of length [n] or as a column)
    returns a vector of length [n], and [invert] an [n×n] matrix, unless
    the pivot search raises the unpivotable-matrix error or
    [RecursionError]: no index or shape error occurs. *)
Theorem solvers_return_or_raise (fuel : nat) (M : loc) (h : heap) (m : matrix) (n : nat)
    (b : ndarray) :
  h !! M = Some m → square n m → 0 < n →
  (shape b = [n] ∨ shape b = [n; 1]) → length (data b) = n →
  ((∃ x, (simul_solve fuel M b None None None None h).1 = Ok x ∧ length x = n) ∨
   (simul_solve fuel M b None None None None h).1 = Raise ValueError_col_of_0s ∨
   (simul_solve fuel M b None None None None h).1 = Raise RecursionError) ∧
  ((∃ A_inv, (invert fuel M h).1 = Ok A_inv ∧ square n A_inv) ∨
   (invert fuel M h).1 = Raise ValueError_col_of_0s ∨
   (invert fuel M h).1 = Raise RecursionError).
Proof.
  intros Hm Hsq Hn Hshape Hlen.
  pose proof (list_lookup_total_correct _ _ _ Hm) as Hm'.
  assert (square n (h !!! M)) as Hsq' by (by rewrite Hm').
  assert (∃ b1, as_column b = Ok b1) as [b1 Hb1].
  { unfold as_column, reshape_column. destruct Hshape as [Hs | Hs]; rewrite Hs; simpl.
    - rewrite decide_True by done. eauto.
    - eauto. }
  destruct (invert_run fuel M m h Hm) as [h' ->].
  rewrite (simul_solve_value _ _ _ _ _ Hb1). cbn [fst].
  destruct (LU fuel M h).1 as [[[[P s] L] U]|e] eqn:HLU.
  2:{ destruct (LU_raises fuel M h n e Hsq' Hn HLU) as [-> | ->]; simpl; auto. }
  destruct (LU_permutation _ _ _ _ _ _ _ _ Hsq' HLU) as (Pl & -> & Hperm).
  assert (length Pl = n) as HlenP by (by rewrite Hperm, length_seq).
  destruct (shape_matrix_P Pl n HlenP Hn) as [HP Hcols].
  cbn [mbind result_bind]. split.
  - left. by apply fb_sub_total.
  - left. rewrite (proj1 Hsq), range_0.
    destruct (inverse_columns_spec L U (_matrix_P Pl) n (seq 0 n) []) as (cols & -> & Hcols').
    { intros i _. apply fb_sub_total; try done.
      - by left.
      - simpl. by rewrite length_fmap, length_seq. }
    cbn [mbind result_bind app]. eexists. split; [done|].
    apply square_transpose; [done| |].
    + apply Forall2_length in Hcols'. by rewrite length_seq in Hcols'.
    + apply Forall_forall. intros x Hx.
      apply list_elem_of_lookup_1 in Hx as [c Hx].
      destruct (Forall2_lookup_r _ _ _ c x Hcols' Hx) as (i & _ & Hfb).
      destruct (fb_sub_total L U (_matrix_P Pl) (unit_vector n i) n) as (x' & Hx' & Hlenx);
        try done.
      { by left. }
      { simpl. by rewrite length_fmap, length_seq. }
      congruence.
Qed.

Lemma solvers_return_or_raise_witness :
  ((∃ x, (simul_solve recursion_limit 0 (vector [1; 2; 3]%Z) None None None None
            [zero_pivot_example]).1 = Ok x ∧ length x = 3) ∨
   (simul_solve recursion_limit 0 (vector [1; 2; 3]%Z) None None None None
      [zero_pivot_example]).1 = Raise ValueError_col_of_0s ∨
   (simul_solve recursion_limit 0 (vector [1; 2; 3]%Z) None None None None
      [zero_pivot_example]).1 = Raise RecursionError) ∧
  ((∃ A_inv, (invert recursion_limit 0 [zero_pivot_example]).1 = Ok A_inv ∧ square 3 A_inv) ∨
   (invert recursion_limit 0 [zero_pivot_example]).1 = Raise ValueError_col_of_0s ∨
   (invert recursion_limit 0 [zero_pivot_example]).1 = Raise RecursionError).
Proof.
  apply (solvers_return_or_raise recursion_limit 0 [zero_pivot_example] zero_pivot_example 3).
  - reflexivity.
  - split; [reflexivity|]. repeat constructor.
  - lia.
  - left. reflexivity.
  - reflexivity.
Defined.

(** ** Rounding

    Some values of the arithmetic: a quotient that is rounded, a tie that
    goes to the even neighbour, an overflow, an underflow to zero, and
    what the rounding does to a decomposition, to an inverse and to a
    determinant. *)

Example round64_third :
  fdiv (Fin 1) (Fin 3) = Fin (6004799503160661 # 18014398509481984).
Proof. vm_compute. reflexivity. Qed.

Example round64_ties :
  of_int (2 ^ 53 + 1) = Fin (inject_Z (2 ^ 53)) ∧
  of_int (2 ^ 53 + 3) = Fin (inject_Z (2 ^ 53 + 4)).
Proof. split; vm_compute; reflexivity. Qed.

Example round64_overflow : fmul (of_int (2 ^ 600)) (of_int (2 ^ 600)) = PInf.
Proof. vm_compute. reflexivity. Qed.

Example round64_underflow :
  fmul (fdiv (Fin 1) (of_int (2 ^ 600))) (fdiv (Fin 1) (of_int (2 ^ 600))) = Fin 0.
Proof. vm_compute. reflexivity. Qed.

(** [LU] on [[3, 1], [1, 1]]: the multiplier 1/3 and the pivot 2/3 are
    rounded, to 0.3333333333333333 and 0.6666666666666667. *)
Example LU_rounds :
  (LU recursion_limit 0 [to_float [[3; 1]; [1; 1]]%Z]).1 =
    Ok ([[1; 0]; [0; 1]]%Z, 1%Z,
        [[Fin 1; Fin 0]; [Fin (6004799503160661 # 18014398509481984); Fin 1]],
        [[Fin 3; Fin 1]; [Fin 0; Fin (3002399751580331 # 4503599627370496)]]).
Proof. vm_compute. reflexivity. Qed.

(** [invert] on the same matrix, whose inverse is [[1/2, -1/2], [-1/2,
    3/2]]: three of the four entries are off by a rounding error. *)
Example invert_rounds :
  (invert recursion_limit 0 [to_float [[3; 1]; [1; 1]]%Z]).1 =
    Ok [[Fin (1 # 2); Fin (-9007199254740991 # 18014398509481984)];
        [Fin (-9007199254740991 # 18014398509481984);
         Fin (6755399441055743 # 4503599627370496)]].
Proof. vm_compute. reflexivity. Qed.

(** The product of the diagonal overflows. *)
Example LU_det_overflow :
  LU_det 1 [[of_int (2 ^ 600); Fin 0]; [Fin 0; of_int (2 ^ 600)]] = Float PInf.
Proof. vm_compute. reflexivity. Qed.
